(** * Trapping integer arithmetic ([trapping.h])

    A shallow embedding of the [integers] library's trapping tier: the
    narrowing check [cast_truncate], the overflow probes, the trapping entry
    points and the [trapping<T>] value type, followed by the properties the
    specification states about them.

    Conventions of the embedding.
    - A value of a fixed-width integral type is the mathematical integer it
      denotes, a [Z]; the type itself is a first-class [itype] (signedness and
      width), since the source takes its types as template parameters.  The
      integral types are the eight fixed-width ones, [int8_t] to [uint64_t].
    - The data model is LP64: [int] is 32 bits wide, [size_t] is the unsigned
      64-bit type, [CHAR_BIT] is 8.
    - Conversions and shifts follow C++20 (two's complement, modular); the
      source says it assumes two's complement.  Integer promotion and the
      usual arithmetic conversions are written out, because the comparisons
      of the source mix types.
    - An out-parameter [R* result] is passed as the value it holds before the
      call; the function returns the value it holds afterwards.
    - [trap()] does not return: a free function yields [Ok v] or [Trap]; a
      member operator is a state transformer over the object, whose outcome
      keeps the object as it is at the moment of the trap.
    - A member of the class template is instantiated only where it is used; a
      member whose body is ill-formed for the integral [T] has no
      instantiation ([Ill_formed]). *)

From Stdlib Require Import ZArith Bool Lia.
From ExtLib Require Import Structures.Monad.
Import MonadNotation.

Local Open Scope Z_scope.
Local Open Scope monad_scope.

(** ** Integral types *)

Inductive width : Type := W8 | W16 | W32 | W64.

Record itype : Type := IntType { is_signed : bool; width_of : width }.

Definition int8_t : itype := IntType true W8.
Definition int16_t : itype := IntType true W16.
Definition int32_t : itype := IntType true W32.
Definition int64_t : itype := IntType true W64.
Definition uint8_t : itype := IntType false W8.
Definition uint16_t : itype := IntType false W16.
Definition uint32_t : itype := IntType false W32.
Definition uint64_t : itype := IntType false W64.

(** The type of an integer literal, and of [sizeof]. *)
Definition int : itype := int32_t.
Definition size_t : itype := uint64_t.

Definition CHAR_BIT : Z := 8.

Definition sizeof (T : itype) : Z :=
  match width_of T with W8 => 1 | W16 => 2 | W32 => 4 | W64 => 8 end.

Definition bits (T : itype) : Z := CHAR_BIT * sizeof T.

(** [std::numeric_limits<T>::min()] and [max()]. *)
Definition numeric_limits_min (T : itype) : Z :=
  if is_signed T then - 2 ^ (bits T - 1) else 0.

Definition numeric_limits_max (T : itype) : Z :=
  if is_signed T then 2 ^ (bits T - 1) - 1 else 2 ^ bits T - 1.

(** The values a [T] can hold. *)
Definition in_range (T : itype) (z : Z) : Prop :=
  numeric_limits_min T <= z <= numeric_limits_max T.

Definition in_rangeb (T : itype) (z : Z) : bool :=
  (numeric_limits_min T <=? z) && (z <=? numeric_limits_max T).

(** [static_cast<R>(z)]: the value of [R] congruent to [z] modulo
    [2 ^ bits R]. *)
Definition static_cast (R : itype) (z : Z) : Z :=
  let m := z mod 2 ^ bits R in
  if is_signed R && (2 ^ (bits R - 1) <=? m) then m - 2 ^ bits R else m.

(** [std::make_unsigned<T>::type]. *)
Definition make_unsigned (T : itype) : itype := IntType false (width_of T).

(** Integer promotion: a type narrower than [int] becomes [int] (which holds
    all its values); the others are unchanged. *)
Definition promote (T : itype) : itype :=
  if sizeof T <? sizeof int then int else T.

(** The usual arithmetic conversions: the type in which a binary operator
    with operands of types [T] and [U] is evaluated. *)
Definition common_type (T U : itype) : itype :=
  let T' := promote T in
  let U' := promote U in
  if Bool.eqb (is_signed T') (is_signed U') then
    if sizeof T' <? sizeof U' then U' else T'
  else
    let s := if is_signed T' then T' else U' in
    let u := if is_signed T' then U' else T' in
    if sizeof s <=? sizeof u then u else s.

(** ** Built-in operators *)

(** A comparison [a op b] of a [T] with a [U]: both operands are converted to
    the common type first. *)
Definition compare_in (op : Z -> Z -> bool) (T U : itype) (a b : Z) : bool :=
  let C := common_type T U in
  op (static_cast C a) (static_cast C b).

Definition op_lt := compare_in Z.ltb.
Definition op_gt := compare_in Z.gtb.
Definition op_eq := compare_in Z.eqb.

(** [a / b] and [a % b], of type [common_type T U]; the quotient is truncated
    towards zero.  The callers exclude [b == 0] and the overflowing quotient. *)
Definition op_div (T U : itype) (a b : Z) : Z :=
  let C := common_type T U in
  static_cast C (Z.quot (static_cast C a) (static_cast C b)).

Definition op_mod (T U : itype) (a b : Z) : Z :=
  let C := common_type T U in
  static_cast C (Z.rem (static_cast C a) (static_cast C b)).

(** [a - b], of type [common_type T U]. *)
Definition op_sub (T U : itype) (a b : Z) : Z :=
  let C := common_type T U in
  static_cast C (static_cast C a - static_cast C b).

(** [a * b], of type [common_type T U]. *)
Definition op_mul (T U : itype) (a b : Z) : Z :=
  let C := common_type T U in
  static_cast C (static_cast C a * static_cast C b).

(** [- a], of type [promote T]. *)
Definition op_neg (T : itype) (a : Z) : Z :=
  let P := promote T in
  static_cast P (- static_cast P a).

(** [a << n] and [a >> n], of type [promote T]; [n] is the value of the right
    operand, which the callers keep within [1 .. bits T - 1]. *)
Definition op_shl (T : itype) (a n : Z) : Z :=
  let P := promote T in
  static_cast P (Z.shiftl (static_cast P a) n).

Definition op_shr (T : itype) (a n : Z) : Z :=
  let P := promote T in
  static_cast P (Z.shiftr (static_cast P a) n).

(** [a | b], [a & b] and [a ^ b], of type [common_type T U]. *)
Definition bitwise_in (op : Z -> Z -> Z) (T U : itype) (a b : Z) : Z :=
  let C := common_type T U in
  static_cast C (op (static_cast C a) (static_cast C b)).

Definition op_or := bitwise_in Z.lor.
Definition op_and := bitwise_in Z.land.
Definition op_xor := bitwise_in Z.lxor.

(** ** Control: returning and trapping *)

(** The completion of a call of a free function: it returns a value, or the
    process is terminated. *)
Inductive completion (A : Type) : Type :=
| Ok (a : A)
| Trap.

Arguments Ok {A} a.
Arguments Trap {A}.

#[export] Instance Monad_completion : Monad completion :=
  {| ret := fun A (a : A) => Ok a;
     bind := fun A B (c : completion A) (k : A -> completion B) =>
               match c with Ok a => k a | Trap => Trap end |}.

(** Modelled from the spec: [trap], declared in [expectations.h], which is not
    part of the sources.  The fatal termination primitive is "invoked with no
    arguments; never returns; immediately and unrecoverably terminates
    execution of the calling thread". *)
Definition trap : completion unit := Trap.

(** Modelled from the spec: [NOTREACHED], a macro of [expectations.h].  It
    marks the branches of [cast_truncate] that no pair of types selects ("there
    is no fifth case"); the embedding takes it to be fatal, and
    [cast_truncate_returns] shows that it is never executed. *)
Definition NOTREACHED : completion unit := trap.

(** A statement [if (c) { body }] without an [else]. *)
Definition when {M : Type -> Type} `{Monad M} (c : bool) (body : M unit) : M unit :=
  if c then body else ret tt.

(** The outcome of a member operator called on an object in state [S]: it
    returns with the object in a new state, or the process is terminated and
    the object is left as it was at that moment. *)
Inductive outcome (S A : Type) : Type :=
| Returned (a : A) (s : S)
| Trapped (s : S).

Arguments Returned {S A} a s.
Arguments Trapped {S A} s.

Definition method (S A : Type) : Type := S -> outcome S A.

#[export] Instance Monad_method (S : Type) : Monad (method S) :=
  {| ret := fun A (a : A) (s : S) => Returned a s;
     bind := fun A B (m : method S A) (k : A -> method S B) (s : S) =>
               match m s with
               | Returned a s' => k a s'
               | Trapped s' => Trapped s'
               end |}.

(** Reading [*this], and assigning to it. *)
Definition get {S : Type} : method S S := fun s => Returned s s.
Definition put {S : Type} (s : S) : method S unit := fun _ => Returned tt s.

(** A call of a free function from a member operator: a trap inside it leaves
    the object untouched. *)
Definition call {S A : Type} (c : completion A) : method S A :=
  fun s => match c with Ok a => Returned a s | Trap => Trapped s end.

(** A member operator run on a local object (a by-value parameter), whose
    final state is dropped when the function returns. *)
Definition on_local {S A : Type} (local : S) (m : method S A) : completion A :=
  match m local with Returned a _ => Ok a | Trapped _ => Trap end.

(** ** Primitive checking operations *)

Definition divide_min_by_negative_1 (T U : itype) (dividend divisor : Z) : bool :=
  is_signed U
  && op_eq T T dividend (numeric_limits_min T)
  && op_eq U int divisor (-1).

(** [cast_truncate<T, R>(value, result)]: the flag is [true] when the check
    reports that [R] cannot hold [value]; [*result] is written only on the
    [STATIC_CAST_AND_RETURN] paths. *)
Definition cast_truncate (T R : itype) (value result : Z) : completion (bool * Z) :=
  let T_signed := is_signed T in
  let R_signed := is_signed R in
  let T_size := sizeof T in
  let R_size := sizeof R in
  let STATIC_CAST_AND_RETURN := ret (false, static_cast R value) in
  let fall_through := NOTREACHED ;; NOTREACHED ;; ret (true, result) in
  if T_signed && R_signed then
    if T_size =? R_size then STATIC_CAST_AND_RETURN
    else if T_size >? R_size then
      if op_gt T R value (numeric_limits_max R) then ret (true, result)
      else STATIC_CAST_AND_RETURN
    else if T_size <? R_size then STATIC_CAST_AND_RETURN
    else fall_through
  else if negb T_signed && negb R_signed then
    if T_size =? R_size then STATIC_CAST_AND_RETURN
    else if T_size >? R_size then
      if op_gt T R value (numeric_limits_max R) then ret (true, result)
      else STATIC_CAST_AND_RETURN
    else if T_size <? R_size then STATIC_CAST_AND_RETURN
    else fall_through
  else if T_signed && negb R_signed then
    if op_lt T int value 0 then ret (true, result)
    else if T_size =? R_size then STATIC_CAST_AND_RETURN
    else if T_size >? R_size then
      let U := make_unsigned T in
      let unsigned_value := static_cast U value in
      if op_gt U R unsigned_value (numeric_limits_max R) then ret (true, result)
      else STATIC_CAST_AND_RETURN
    else if T_size <? R_size then STATIC_CAST_AND_RETURN
    else fall_through
  else if negb T_signed && R_signed then
    if op_gt T R value (numeric_limits_max R) then ret (true, result)
    else if T_size =? R_size then STATIC_CAST_AND_RETURN
    else if T_size >? R_size then STATIC_CAST_AND_RETURN
    else if T_size <? R_size then STATIC_CAST_AND_RETURN
    else fall_through
  else fall_through.

(** The compiler's checked-arithmetic intrinsics [__builtin_add_overflow],
    [__builtin_sub_overflow] and [__builtin_mul_overflow], as GCC and Clang
    document them: the operation is carried out on the operands as if in
    infinite precision, the result is converted to the type [*result] has and
    stored, and the flag tells whether the stored value differs from the exact
    one. *)
Definition builtin_overflow (op : Z -> Z -> Z) (R : itype) (x y : Z) : bool * Z :=
  let exact := op x y in
  let stored := static_cast R exact in
  (negb (stored =? exact), stored).

Definition builtin_add_overflow := builtin_overflow Z.add.
Definition builtin_sub_overflow := builtin_overflow Z.sub.
Definition builtin_mul_overflow := builtin_overflow Z.mul.

Definition add_overflow (T U R : itype) (x y result : Z) : bool * Z :=
  builtin_add_overflow R x y.

Definition sub_overflow (T U R : itype) (x y result : Z) : bool * Z :=
  builtin_sub_overflow R x y.

Definition mul_overflow (T U R : itype) (x y result : Z) : bool * Z :=
  builtin_mul_overflow R x y.

Definition div_overflow (T U R : itype) (dividend divisor result : Z)
  : completion (bool * Z) :=
  if op_eq U int divisor 0 then ret (true, result)
  else if divide_min_by_negative_1 T U dividend divisor then ret (true, result)
  else cast_truncate (common_type T U) R (op_div T U dividend divisor) result.

Definition mod_overflow (T U R : itype) (dividend divisor result : Z)
  : completion (bool * Z) :=
  if op_eq U int divisor 0 then ret (true, result)
  else if divide_min_by_negative_1 T U dividend divisor then ret (true, result)
  else cast_truncate (common_type T U) R (op_mod T U dividend divisor) result.

(** ** Trapping operations *)

Definition trapping_cast (T R : itype) (value : Z) : completion Z :=
  let result := 0 in
  '(failed, result) <- cast_truncate T R value result ;;
  when failed trap ;;
  ret result.

Definition trapping_add (T U R : itype) (x y : Z) : completion Z :=
  let result := 0 in
  let '(overflowed, result) := add_overflow T U R x y result in
  when overflowed trap ;;
  ret result.

Definition trapping_mul (T U R : itype) (x y : Z) : completion Z :=
  let result := 0 in
  let '(overflowed, result) := mul_overflow T U R x y result in
  when overflowed trap ;;
  ret result.

Definition trapping_sub (T U R : itype) (x y : Z) : completion Z :=
  let result := 0 in
  let '(overflowed, result) := sub_overflow T U R x y result in
  when overflowed trap ;;
  ret result.

Definition trapping_div (T U R : itype) (dividend divisor : Z) : completion Z :=
  let result := 0 in
  '(overflowed, result) <- div_overflow T U R dividend divisor result ;;
  when overflowed trap ;;
  ret result.

Definition trapping_mod (T U R : itype) (dividend divisor : Z) : completion Z :=
  let result := 0 in
  '(overflowed, result) <- mod_overflow T U R dividend divisor result ;;
  when overflowed trap ;;
  ret result.

(** ** The value type [trapping<T>] *)

(** The object holds the single member [value_]; the type parameter is kept in
    the type of the object. *)
Record trapping (T : itype) : Type := Trapping { value_ : Z }.

Arguments Trapping {T} value_.
Arguments value_ {T} _.

(** What a member operator declared [Self&] returns with [return *this]: the
    object it was called on. *)
Inductive self_ref : Type := this_object.

(** An operand of an expression in a member of [trapping<T>]: a [const T&],
    which is a raw value of the integral type [T], or a [const Self&], an
    object of the class. *)
Inductive operand (T : itype) : Type :=
| Raw (x : Z)
| Object (o : trapping T).

Arguments Raw T x : clear implicits.
Arguments Object {T} o.

(** The class member access [e.value_].  It needs an operand of class type:
    on a raw [T] the expression is ill-formed. *)
Definition member_value_ {T : itype} (e : operand T) : option Z :=
  match e with
  | Object o => Some (value_ o)
  | Raw _ _ => None
  end.

(** The instantiation of a member of the class template for a type [T]: what
    its body denotes, or nothing when the body is ill-formed for [T], in which
    case every expression that uses the member is rejected by the compiler. *)
Inductive instantiation (A : Type) : Type :=
| Instantiated (a : A)
| Ill_formed.

Arguments Instantiated {A} a.
Arguments Ill_formed {A}.

Section trapping_class.

Variable T : itype.

Abbreviation Self := (trapping T).

(** [CHAR_BIT * sizeof(T) - 1], a [size_t]. *)
Definition last_bit : Z :=
  op_sub size_t int (op_mul int size_t CHAR_BIT (sizeof T)) 1.

(** [operator T() const]. *)
Definition operator_T (self : Self) : Z := value_ self.

(** [operator+=] *)
Definition operator_add_assign (x : Z) : method Self self_ref :=
  this <- get ;;
  v <- call (trapping_add T T T (value_ this) x) ;;
  put (Trapping v) ;;
  ret this_object.

(** Binary [operator+]; [lhs] is passed by value. *)
Definition operator_add (lhs rhs : Self) : completion Self :=
  on_local lhs (operator_add_assign (operator_T rhs) ;; get).

(** Unary [operator+] *)
Definition operator_plus : method Self self_ref := ret this_object.

(** [operator-=] *)
Definition operator_sub_assign (x : Z) : method Self self_ref :=
  this <- get ;;
  v <- call (trapping_sub T T T (value_ this) x) ;;
  put (Trapping v) ;;
  ret this_object.

Definition operator_sub (lhs rhs : Self) : completion Self :=
  on_local lhs (operator_sub_assign (operator_T rhs) ;; get).

(** Unary [operator-] *)
Definition operator_neg : method Self self_ref :=
  this <- get ;;
  when (is_signed T && op_eq T T (value_ this) (numeric_limits_min T))
       (call trap) ;;
  this <- get ;;
  put (Trapping (static_cast T (op_neg T (value_ this)))) ;;
  ret this_object.

(** [operator*=] *)
Definition operator_mul_assign (x : Z) : method Self self_ref :=
  this <- get ;;
  v <- call (trapping_mul T T T (value_ this) x) ;;
  put (Trapping v) ;;
  ret this_object.

Definition operator_mul (lhs rhs : Self) : completion Self :=
  on_local lhs (operator_mul_assign (operator_T rhs) ;; get).

(** [operator/=] *)
Definition operator_div_assign (divisor : Z) : method Self self_ref :=
  this <- get ;;
  v <- call (trapping_div T T T (value_ this) divisor) ;;
  put (Trapping v) ;;
  ret this_object.

Definition operator_div (dividend divisor : Self) : completion Self :=
  on_local dividend (operator_div_assign (operator_T divisor) ;; get).

(** [operator%=] *)
Definition operator_mod_assign (divisor : Z) : method Self self_ref :=
  this <- get ;;
  v <- call (trapping_mod T T T (value_ this) divisor) ;;
  put (Trapping v) ;;
  ret this_object.

Definition operator_mod (dividend divisor : Self) : completion Self :=
  on_local dividend (operator_mod_assign (operator_T divisor) ;; get).

(** [operator|=], [operator&=] and [operator^=].  Each takes [x] as a
    [const T&] and reads [x.value_]: the body is ill-formed, since [T] is
    integral (the [static_assert] of the class), and the member cannot be
    instantiated. *)
Definition operator_or_assign (x : Z) : instantiation (method Self self_ref) :=
  match member_value_ (Raw T x) with
  | Some x_value_ =>
      Instantiated
        (this <- get ;;
         put (Trapping (static_cast T (op_or T T (value_ this) x_value_))) ;;
         ret this_object)
  | None => Ill_formed
  end.

Definition operator_and_assign (x : Z) : instantiation (method Self self_ref) :=
  match member_value_ (Raw T x) with
  | Some x_value_ =>
      Instantiated
        (this <- get ;;
         put (Trapping (static_cast T (op_and T T (value_ this) x_value_))) ;;
         ret this_object)
  | None => Ill_formed
  end.

Definition operator_xor_assign (x : Z) : instantiation (method Self self_ref) :=
  match member_value_ (Raw T x) with
  | Some x_value_ =>
      Instantiated
        (this <- get ;;
         put (Trapping (static_cast T (op_xor T T (value_ this) x_value_))) ;;
         ret this_object)
  | None => Ill_formed
  end.

(** Binary [operator|], [operator&] and [operator^]: each calls a compound
    form on its by-value [lhs], with [rhs] converted to [T], and so needs that
    member instantiated; the body of the last is [lhs |= rhs; return lhs;]. *)
Definition operator_or (lhs rhs : Self) : instantiation (completion Self) :=
  match operator_or_assign (operator_T rhs) with
  | Instantiated or_assign => Instantiated (on_local lhs (or_assign ;; get))
  | Ill_formed => Ill_formed
  end.

Definition operator_and (lhs rhs : Self) : instantiation (completion Self) :=
  match operator_and_assign (operator_T rhs) with
  | Instantiated and_assign => Instantiated (on_local lhs (and_assign ;; get))
  | Ill_formed => Ill_formed
  end.

Definition operator_xor (lhs rhs : Self) : instantiation (completion Self) :=
  match operator_or_assign (operator_T rhs) with
  | Instantiated or_assign => Instantiated (on_local lhs (or_assign ;; get))
  | Ill_formed => Ill_formed
  end.

(** [operator>>=] *)
Definition operator_shr_assign (x : Z) : method Self self_ref :=
  when (op_lt T int x 1 || op_gt T size_t x last_bit) (call trap) ;;
  this <- get ;;
  put (Trapping (static_cast T (op_shr T (value_ this) x))) ;;
  ret this_object.

Definition operator_shr (lhs rhs : Self) : completion Self :=
  on_local lhs (operator_shr_assign (operator_T rhs) ;; get).

(** [operator<<=] *)
Definition operator_shl_assign (x : Z) : method Self self_ref :=
  when (op_lt T int x 1 || op_gt T size_t x last_bit) (call trap) ;;
  let y :=
    static_cast T
      (op_shl T x (op_sub size_t T (op_mul int size_t CHAR_BIT (sizeof T)) x)) in
  this <- get ;;
  when (op_gt T T (value_ this) y) (call trap) ;;
  this <- get ;;
  put (Trapping (static_cast T (op_shl T (value_ this) x))) ;;
  ret this_object.

Definition operator_shl (lhs rhs : Self) : completion Self :=
  on_local lhs (operator_shl_assign (operator_T rhs) ;; get).

(** [operator++] and [operator--], prefix and postfix. *)
Definition operator_pre_inc : method Self self_ref :=
  operator_add_assign (static_cast T 1) ;;
  ret this_object.

Definition operator_post_inc : method Self Self :=
  previous <- get ;;
  operator_add_assign (static_cast T 1) ;;
  ret previous.

Definition operator_pre_dec : method Self self_ref :=
  operator_sub_assign (static_cast T 1) ;;
  ret this_object.

Definition operator_post_dec : method Self Self :=
  previous <- get ;;
  operator_sub_assign (static_cast T 1) ;;
  ret previous.

End trapping_class.

(** ** Comparisons and conversions of [trapping<T>] *)

Section trapping_comparisons.

Variable T : itype.

(** [operator<], [operator>], [operator<=] and [operator>=] on two
    [trapping<T>]: the first compares the members, the others are written
    with the one before. *)
Definition operator_lt (lhs rhs : trapping T) : bool :=
  op_lt T T (value_ lhs) (value_ rhs).

Definition operator_gt (lhs rhs : trapping T) : bool := operator_lt rhs lhs.

Definition operator_le (lhs rhs : trapping T) : bool :=
  negb (operator_gt lhs rhs).

Definition operator_ge (lhs rhs : trapping T) : bool :=
  negb (operator_gt rhs lhs).

(** [operator==] and [operator!=] on two [trapping<T>]. *)
Definition operator_eq (lhs rhs : trapping T) : bool :=
  op_eq T T (value_ lhs) (value_ rhs).

Definition operator_ne (lhs rhs : trapping T) : bool :=
  negb (operator_eq lhs rhs).

(** The comparisons of a [trapping<T>] with a raw [T] that read [value_]:
    [operator<], [operator==], and [operator!=] written with the latter.  The
    other three ([>], [<=], [>=] with a raw [T]) compare a [T] with a
    [trapping<T>] in their body, [rhs < lhs] or [rhs > lhs], a call for which
    the overloads above and the built-in comparison are equally good; they
    are not embedded. *)
Definition operator_lt_T (lhs : trapping T) (rhs : Z) : bool :=
  op_lt T T (value_ lhs) rhs.

Definition operator_eq_T (lhs : trapping T) (rhs : Z) : bool :=
  op_eq T T (value_ lhs) rhs.

Definition operator_ne_T (lhs : trapping T) (rhs : Z) : bool :=
  negb (operator_eq_T lhs rhs).

(** [operator U() const], for a type [U]: [trapping_cast<T, U>(value_)]. *)
Definition operator_U (U : itype) (self : trapping T) : completion Z :=
  trapping_cast T U (value_ self).

End trapping_comparisons.

(** ** Vocabulary of the specification *)

(** A trapping entry point follows its probe: it returns the value the probe
    computed when the probe reports success, and traps when the probe reports
    failure (or does not return). *)
Definition follows_probe (probe : completion (bool * Z)) (entry : completion Z)
  : Prop :=
  match probe with
  | Ok (false, computed) => entry = Ok computed
  | Ok (true, _) => entry = Trap
  | Trap => entry = Trap
  end.

(** The two guards of the division probes, for a dividend [a] and a divisor
    [b] of one type: a zero divisor, and the minimum of a signed type divided
    by -1. *)
Definition division_guard (T : itype) (a b : Z) : bool :=
  (b =? 0) || (is_signed T && (a =? numeric_limits_min T) && (b =? -1)).

(** * Properties *)

(** ** Ranges and conversions *)

(** The integral types are finitely many: a statement about all of them is
    proved type by type, with the limits of each type computed. *)
Ltac each_type T := destruct T as [[|] [| | |]].

Ltac has_variable t := match t with context [?x] => is_var x end.

Ltac closed_value t :=
  tryif has_variable t then fail
  else (let v := eval vm_compute in t in progress change t with v in *).

Ltac limits :=
  unfold in_range, in_rangeb in *;
  repeat match goal with
    | |- context [numeric_limits_max ?T] => closed_value (numeric_limits_max T)
    | |- context [numeric_limits_min ?T] => closed_value (numeric_limits_min T)
    | |- context [2 ^ ?e] => closed_value (2 ^ e)
    | |- context [bits ?T] => closed_value (bits T)
    | |- context [sizeof ?T] => closed_value (sizeof T)
    | |- context [is_signed ?T] => closed_value (is_signed T)
    | _ : context [numeric_limits_max ?T] |- _ => closed_value (numeric_limits_max T)
    | _ : context [numeric_limits_min ?T] |- _ => closed_value (numeric_limits_min T)
    | _ : context [2 ^ ?e] |- _ => closed_value (2 ^ e)
    | _ : context [bits ?T] |- _ => closed_value (bits T)
    | _ : context [sizeof ?T] |- _ => closed_value (sizeof T)
    | _ : context [is_signed ?T] |- _ => closed_value (is_signed T)
    end;
  cbn [andb orb negb] in *.

Ltac by_cases :=
  repeat match goal with
    | |- context [?a <? ?b] => destruct (Z.ltb_spec a b)
    | |- context [?a <=? ?b] => destruct (Z.leb_spec a b)
    | |- context [?a =? ?b] => destruct (Z.eqb_spec a b)
    | |- context [?a >? ?b] => rewrite (Z.gtb_ltb a b)
    end.

Ltac modular := Z.to_euclidean_division_equations; lia.

Lemma static_cast_in_range (R : itype) (z : Z) : in_range R (static_cast R z).
Proof. unfold static_cast; each_type R; limits; by_cases; modular. Qed.

Lemma static_cast_id (R : itype) (z : Z) : in_range R z -> static_cast R z = z.
Proof.
  unfold static_cast; each_type R; limits; intros Hz; by_cases; modular.
Qed.

Lemma static_cast_fixed_iff (R : itype) (z : Z) :
  static_cast R z = z <-> in_range R z.
Proof.
  split.
  - intros <-. apply static_cast_in_range.
  - apply static_cast_id.
Qed.

Lemma in_rangeb_true_iff (R : itype) (z : Z) :
  in_rangeb R z = true <-> in_range R z.
Proof.
  unfold in_range, in_rangeb. rewrite andb_true_iff, !Z.leb_le. tauto.
Qed.

Lemma in_rangeb_false_iff (R : itype) (z : Z) :
  in_rangeb R z = false <-> ~ in_range R z.
Proof.
  rewrite <- in_rangeb_true_iff. destruct (in_rangeb R z); intuition congruence.
Qed.

Lemma numeric_limits_min_in_range (T : itype) : in_range T (numeric_limits_min T).
Proof. each_type T; limits; lia. Qed.

Lemma numeric_limits_max_in_range (T : itype) : in_range T (numeric_limits_max T).
Proof. each_type T; limits; lia. Qed.

(** A promoted type holds every value of the type it comes from. *)
Lemma promote_in_range (T : itype) (z : Z) :
  in_range T z -> in_range (promote T) z.
Proof. each_type T; limits; lia. Qed.

(** A signed common type holds every value of both operand types. *)
Lemma common_type_signed_l (T U : itype) (z : Z) :
  is_signed (common_type T U) = true -> in_range T z ->
  in_range (common_type T U) z.
Proof. each_type T; each_type U; limits; intros; try discriminate; lia. Qed.

Lemma common_type_signed_r (T U : itype) (z : Z) :
  is_signed (common_type T U) = true -> in_range U z ->
  in_range (common_type T U) z.
Proof. each_type T; each_type U; limits; intros; try discriminate; lia. Qed.

(** The common type holds every non-negative value of both operand types. *)
Lemma common_type_nonneg_l (T U : itype) (z : Z) :
  0 <= z -> in_range T z -> in_range (common_type T U) z.
Proof. each_type T; each_type U; limits; lia. Qed.

Lemma common_type_nonneg_r (T U : itype) (z : Z) :
  0 <= z -> in_range U z -> in_range (common_type T U) z.
Proof. each_type T; each_type U; limits; lia. Qed.

(** A comparison is the mathematical one when the common type holds both
    operands. *)
Lemma compare_in_exact (op : Z -> Z -> bool) (T U : itype) (a b : Z) :
  in_range (common_type T U) a -> in_range (common_type T U) b ->
  compare_in op T U a b = op a b.
Proof.
  intros Ha Hb. unfold compare_in. cbv zeta.
  now rewrite !static_cast_id.
Qed.

Lemma op_eq_same_type (T : itype) (a b : Z) :
  in_range T a -> in_range T b -> op_eq T T a b = (a =? b).
Proof.
  intros Ha Hb. unfold op_eq. apply compare_in_exact.
  - revert Ha. each_type T; limits; lia.
  - revert Hb. each_type T; limits; lia.
Qed.

Create HintDb ranges discriminated.

#[export] Hint Resolve static_cast_in_range numeric_limits_min_in_range
  numeric_limits_max_in_range promote_in_range : ranges.

(** ** The narrowing check *)

Ltac exact_compare :=
  rewrite compare_in_exact by
    first [ limits; lia
          | apply common_type_nonneg_l;
            [ match goal with
              | |- 0 <= static_cast ?U ?v =>
                  pose proof (static_cast_in_range U v); limits; lia
              end
            | apply static_cast_in_range ] ].

Ltac select_branch :=
  cbn [is_signed andb negb orb sizeof width_of Z.eqb Z.gtb Z.ltb Z.compare
       Pos.eqb Pos.compare Pos.compare_cont make_unsigned ret bind
       Monad_completion NOTREACHED trap].

(** What [cast_truncate] decides on a value of [T]: it rejects the value when
    it lies above [R]'s maximum, or is negative while [R] is unsigned, and
    converts it otherwise.  A value below the minimum of a signed [R] is not
    rejected. *)
Lemma cast_truncate_decides (T R : itype) (value result : Z) :
  in_range T value ->
  cast_truncate T R value result =
    if (numeric_limits_max R <? value) || (negb (is_signed R) && (value <? 0))
    then Ok (true, result)
    else Ok (false, static_cast R value).
Proof.
  intros Hv. unfold cast_truncate, op_gt, op_lt.
  each_type T; each_type R; select_branch; repeat exact_compare;
    by_cases; cbn [orb andb]; try reflexivity;
    unfold static_cast in *; limits; by_cases; modular.
Qed.

(** No pair of types reaches a [NOTREACHED]: the check always returns, either
    rejecting the value and leaving [*result] alone, or storing the converted
    value. *)
Lemma cast_truncate_returns (T R : itype) (value result : Z) :
  cast_truncate T R value result = Ok (true, result) \/
  cast_truncate T R value result = Ok (false, static_cast R value).
Proof.
  unfold cast_truncate.
  each_type T; each_type R; select_branch;
    repeat match goal with
      | |- context [if ?c then _ else _] => destruct c
      end; auto.
Qed.

(** The decision does not depend on what [*result] holds before the call. *)
Lemma cast_truncate_flag_independent (T R : itype) (value result result' : Z) :
  cast_truncate T R value result = Ok (true, result) <->
  cast_truncate T R value result' = Ok (true, result').
Proof.
  unfold cast_truncate.
  each_type T; each_type R; select_branch;
    repeat match goal with
      | |- context [if ?c then _ else _] => destruct c
      end; split; intros E; try reflexivity; discriminate E.
Qed.

(** Where [value] is not below the minimum of a signed [R] the check is
    exact: [cast_truncate] returns [false] exactly when [value] is representable
    in [R], and then writes [value] itself, which converts back to [T]
    unchanged. *)
Lemma cast_truncate_exact_above_min (T R : itype) (value result : Z) :
  in_range T value ->
  (is_signed R = true -> numeric_limits_min R <= value) ->
  (cast_truncate T R value result = Ok (false, value) <-> in_range R value)
  /\ (in_range R value -> static_cast T (static_cast R value) = value)
  /\ (~ in_range R value -> cast_truncate T R value result = Ok (true, result)).
Proof.
  intros Hv Hmin. rewrite (cast_truncate_decides T R value result Hv).
  assert (Hdec : (numeric_limits_max R <? value)
                 || (negb (is_signed R) && (value <? 0)) = false
                 <-> in_range R value).
  { rewrite orb_false_iff, andb_false_iff, negb_false_iff, !Z.ltb_ge.
    unfold in_range. unfold numeric_limits_min in *.
    destruct (is_signed R); [specialize (Hmin eq_refl) | clear Hmin];
      intuition (try lia; try discriminate). }
  destruct (_ || _) eqn:E.
  - assert (HR : ~ in_range R value) by (intros HR; apply Hdec in HR; discriminate).
    split; [split; [discriminate | tauto] | split; [tauto | reflexivity]].
  - assert (HR : in_range R value) by now apply Hdec.
    rewrite (static_cast_id R value HR), (static_cast_id T value Hv).
    split; [split; trivial | split; [trivial | tauto]].
Qed.

(** C1. On the signed-to-signed narrowing path only the upper bound is
    checked: [cast_truncate<int32_t, int8_t>(-200, &result)] returns [false]
    and writes 56, although -200 is not representable in [int8_t], and the
    written value converted back to [int32_t] is 56, not -200. *)
Theorem cast_truncate_accepts_below_min :
  cast_truncate int32_t int8_t (-200) 0 = Ok (false, 56)
  /\ in_range int32_t (-200)
  /\ ~ in_range int8_t (-200)
  /\ static_cast int32_t 56 <> -200.
Proof.
  repeat split; try (vm_compute; congruence).
  intros [Hlo _]. vm_compute in Hlo. apply Hlo. reflexivity.
Qed.

(** The values [cast_truncate] accepts are those representable in [R] and,
    for a signed [R], those below its minimum; a representable value converts
    back to [T] unchanged. *)
Theorem cast_truncate_accepts_iff (T R : itype) (value result : Z) :
  in_range T value ->
  (cast_truncate T R value result = Ok (false, static_cast R value) <->
   in_range R value \/ (is_signed R = true /\ value < numeric_limits_min R))
  /\ (in_range R value -> static_cast T (static_cast R value) = value).
Proof.
  intros Hv. split.
  - rewrite (cast_truncate_decides T R value result Hv).
    pose proof (proj2 (numeric_limits_min_in_range R)) as Hlim.
    unfold in_range, numeric_limits_min in *.
    destruct (is_signed R); cbn [negb andb]; by_cases; cbn [orb];
      (split; [intros E; try discriminate E | intros Hacc; try reflexivity]);
      try lia; intuition (try discriminate; try lia).
  - intros HR. now rewrite (static_cast_id R value HR), (static_cast_id T value Hv).
Qed.

Lemma cast_truncate_accepts_iff_witness :
  cast_truncate int32_t int8_t (-200) 0 = Ok (false, static_cast int8_t (-200)).
Proof.
  assert (Hv : in_range int32_t (-200)) by (limits; lia).
  destruct (cast_truncate_accepts_iff int32_t int8_t (-200) 0 Hv) as [Hiff _].
  apply Hiff. right. split; [reflexivity|]. limits. lia.
Defined.

(** C7. [cast_truncate] follows the per-case algorithm.  It always returns,
    rejecting the value or storing the converted one.  Signed to signed: with
    a wider source it accepts exactly the values at most [R]'s maximum, and
    with a target of the same or a larger size it accepts every value.  Signed
    to unsigned: a negative value is rejected; a non-negative one is rejected
    exactly when the source is wider and its unsigned bit pattern exceeds
    [R]'s maximum.  Unsigned to signed: the value is rejected exactly when it
    exceeds [R]'s maximum, whatever the sizes. *)
Theorem cast_truncate_by_case (T R : itype) (value result : Z) :
  in_range T value ->
  (cast_truncate T R value result = Ok (true, result) \/
   cast_truncate T R value result = Ok (false, static_cast R value))
  /\ (is_signed T = true -> is_signed R = true ->
      (sizeof R < sizeof T ->
       (cast_truncate T R value result = Ok (false, static_cast R value) <->
        value <= numeric_limits_max R))
      /\ (sizeof T <= sizeof R ->
          cast_truncate T R value result = Ok (false, static_cast R value)))
  /\ (is_signed T = true -> is_signed R = false ->
      (value < 0 -> cast_truncate T R value result = Ok (true, result))
      /\ (0 <= value ->
          (cast_truncate T R value result = Ok (true, result) <->
           sizeof R < sizeof T /\
           numeric_limits_max R < static_cast (make_unsigned T) value)))
  /\ (is_signed T = false -> is_signed R = true ->
      (cast_truncate T R value result = Ok (true, result) <->
       numeric_limits_max R < value)).
Proof.
  intros Hv. split; [apply cast_truncate_returns|].
  rewrite (cast_truncate_decides T R value result Hv).
  assert (Hu : 0 <= value -> static_cast (make_unsigned T) value = value).
  { intros H0. apply static_cast_id. revert Hv. each_type T; limits; lia. }
  destruct (Z.ltb_spec (numeric_limits_max R) value) as [Hgt|Hle];
    destruct (Z.ltb_spec value 0) as [Hneg|Hpos];
    try (rewrite Hu by assumption); clear Hu;
    each_type T; each_type R; cbn [orb andb negb is_signed];
    (split; [|split]); intros; try discriminate;
    limits; intuition (try discriminate; try lia).
Qed.

Lemma cast_truncate_by_case_witness :
  cast_truncate int32_t int8_t 100 7 = Ok (false, static_cast int8_t 100) <->
  100 <= numeric_limits_max int8_t.
Proof.
  assert (Hv : in_range int32_t 100) by (limits; lia).
  destruct (cast_truncate_by_case int32_t int8_t 100 7 Hv) as (_ & Hss & _).
  destruct (Hss eq_refl eq_refl) as [Hnarrow _].
  apply Hnarrow. reflexivity.
Defined.

(** ** The overflow probes *)

(** The flag of a checked-arithmetic intrinsic tells whether the exact result
    is out of the range of [R]; without the flag the stored value is exact. *)
Lemma builtin_overflow_exact (op : Z -> Z -> Z) (R : itype) (x y : Z) :
  (fst (builtin_overflow op R x y) = true <-> ~ in_range R (op x y))
  /\ (fst (builtin_overflow op R x y) = false ->
      snd (builtin_overflow op R x y) = op x y).
Proof.
  unfold builtin_overflow. cbn [fst snd].
  rewrite negb_true_iff, negb_false_iff, Z.eqb_neq, Z.eqb_eq, static_cast_fixed_iff.
  tauto.
Qed.

(** C6. [add_overflow], [sub_overflow] and [mul_overflow] report failure
    exactly when the exact sum, difference or product lies outside
    [[R_min, R_max]], and on success the value written is that exact value. *)
Theorem arithmetic_probes_exact (T U R : itype) (x y result : Z) :
  ((fst (add_overflow T U R x y result) = true <-> ~ in_range R (x + y))
   /\ (fst (add_overflow T U R x y result) = false ->
       snd (add_overflow T U R x y result) = x + y))
  /\ ((fst (sub_overflow T U R x y result) = true <-> ~ in_range R (x - y))
      /\ (fst (sub_overflow T U R x y result) = false ->
          snd (sub_overflow T U R x y result) = x - y))
  /\ ((fst (mul_overflow T U R x y result) = true <-> ~ in_range R (x * y))
      /\ (fst (mul_overflow T U R x y result) = false ->
          snd (mul_overflow T U R x y result) = x * y)).
Proof.
  repeat apply conj; apply builtin_overflow_exact.
Qed.

(** ** Division and remainder *)

Lemma op_eq_literal_0 (U : itype) (d : Z) :
  in_range U d -> op_eq U int d 0 = (d =? 0).
Proof.
  intros Hd. unfold op_eq. apply compare_in_exact.
  - revert Hd. each_type U; limits; lia.
  - each_type U; limits; lia.
Qed.

Lemma op_eq_literal_minus_1 (U : itype) (d : Z) :
  is_signed U = true -> in_range U d -> op_eq U int d (-1) = (d =? -1).
Proof.
  intros Hs Hd. unfold op_eq. apply compare_in_exact.
  - revert Hs Hd. each_type U; try discriminate; limits; lia.
  - revert Hs. each_type U; try discriminate; limits; lia.
Qed.

Lemma divide_min_by_negative_1_decides (T U : itype) (dividend divisor : Z) :
  in_range T dividend -> in_range U divisor ->
  divide_min_by_negative_1 T U dividend divisor =
    is_signed U && (dividend =? numeric_limits_min T) && (divisor =? -1).
Proof.
  intros Ha Hb. unfold divide_min_by_negative_1.
  rewrite (op_eq_same_type T _ _ Ha (numeric_limits_min_in_range T)).
  destruct (is_signed U) eqn:Es; [|reflexivity].
  now rewrite op_eq_literal_minus_1.
Qed.

(** The shape both probes share: the two guards, then the narrowing of the
    natively computed value [q]. *)
Lemma guarded_narrowing_fails_iff (T U R : itype) (dividend divisor q result : Z) :
  in_range T dividend -> in_range U divisor ->
  in_range (common_type T U) q ->
  (is_signed T = false -> is_signed U = true ->
   ~ (dividend = 0 /\ divisor = -1)) ->
  (divisor <> 0 ->
   ~ (is_signed T = true /\ dividend = numeric_limits_min T /\ divisor = -1) ->
   is_signed R = true -> numeric_limits_min R <= q) ->
  let probe :=
    if op_eq U int divisor 0 then Ok (true, result)
    else if divide_min_by_negative_1 T U dividend divisor then Ok (true, result)
    else cast_truncate (common_type T U) R q result in
  (probe = Ok (true, result) <->
   divisor = 0
   \/ (is_signed T = true /\ dividend = numeric_limits_min T /\ divisor = -1)
   \/ ~ in_range R q)
  /\ (probe = Ok (true, result) \/ probe = Ok (false, q)).
Proof.
  intros Ha Hb Hq Hslip Hmin probe. subst probe.
  rewrite (op_eq_literal_0 U divisor Hb),
    (divide_min_by_negative_1_decides T U dividend divisor Ha Hb).
  destruct (Z.eqb_spec divisor 0) as [E0|E0]; [split; [split|]; auto|].
  destruct (is_signed U && (dividend =? numeric_limits_min T) && (divisor =? -1))
    eqn:Eguard.
  - split; [|now auto]. split; [intros _|reflexivity].
    apply andb_true_iff in Eguard as [Eguard E1].
    apply andb_true_iff in Eguard as [Es Emin].
    apply Z.eqb_eq in E1, Emin.
    destruct (is_signed T) eqn:Et; [now auto|].
    exfalso. apply (Hslip eq_refl Es). split; [|assumption].
    rewrite Emin. unfold numeric_limits_min. now rewrite Et.
  - assert (Hguard : ~ (is_signed T = true /\
                        dividend = numeric_limits_min T /\ divisor = -1)).
    { intros (Et & Emin & E1). subst dividend divisor.
      rewrite !Z.eqb_refl, !andb_true_r in Eguard.
      revert Et Eguard Hb. clear. each_type U; try discriminate; limits; lia. }
    destruct (cast_truncate_exact_above_min (common_type T U) R q result Hq
                (Hmin E0 Hguard)) as (Hfits & _ & Hrejects).
    destruct (in_rangeb R q) eqn:ER.
    + apply in_rangeb_true_iff in ER. apply Hfits in ER. rewrite ER.
      split; [|now auto]. split; [discriminate|].
      intros [H|[H|H]]; try contradiction. elim H. now apply Hfits.
    + apply in_rangeb_false_iff in ER. rewrite (Hrejects ER).
      split; [|now auto]. split; auto.
Qed.

Lemma quot_bounded (a b : Z) : Z.abs (Z.quot a b) <= Z.abs a.
Proof. Z.to_euclidean_division_equations; nia. Qed.

Lemma rem_bounded (a b : Z) : Z.abs (Z.rem a b) <= Z.abs a.
Proof.
  destruct (Z.eq_dec b 0) as [Hb|Hb].
  - rewrite Z.rem_0_r_ext by assumption. lia.
  - destruct (Z.lt_ge_cases (Z.abs a) (Z.abs b)) as [Hsmall|Hlarge].
    + apply Z.rem_small_iff in Hsmall; [|assumption]. rewrite Hsmall. lia.
    + pose proof (Z.rem_bound_abs a b Hb). lia.
Qed.

Lemma quot_negates_only_by_minus_1 (a b : Z) :
  a <> 0 -> Z.quot a b = - a -> b = -1.
Proof. Z.to_euclidean_division_equations; nia. Qed.

Lemma quot_nonneg (a b : Z) : 0 <= a -> 0 <= b -> 0 <= Z.quot a b.
Proof. Z.to_euclidean_division_equations; nia. Qed.

Lemma rem_sign_of_dividend (a b : Z) :
  (0 <= a -> 0 <= Z.rem a b) /\ (a <= 0 -> Z.rem a b <= 0).
Proof. Z.to_euclidean_division_equations; nia. Qed.

Lemma common_type_same (T : itype) : common_type T T = promote T.
Proof. now each_type T. Qed.

(** With both operands of type [T], and the overflowing quotient set aside,
    native division is the truncating division of the integers and its result
    is a value of [T]. *)
Lemma native_quotient_same_type (T : itype) (a b : Z) :
  in_range T a -> in_range T b ->
  ~ (is_signed T = true /\ a = numeric_limits_min T /\ b = -1) ->
  op_div T T a b = Z.quot a b /\ in_range T (Z.quot a b).
Proof.
  intros Ha Hb Hguard.
  assert (Hq : in_range T (Z.quot a b)).
  { pose proof (quot_bounded a b). pose proof (quot_nonneg a b).
    pose proof (quot_negates_only_by_minus_1 a b).
    revert Ha Hb Hguard. each_type T; limits; intros; lia. }
  split; [|exact Hq].
  unfold op_div. cbv zeta. rewrite common_type_same.
  now rewrite (static_cast_id _ a), (static_cast_id _ b), static_cast_id
    by now apply promote_in_range.
Qed.

Lemma native_remainder_same_type (T : itype) (a b : Z) :
  in_range T a -> in_range T b ->
  op_mod T T a b = Z.rem a b /\ in_range T (Z.rem a b).
Proof.
  intros Ha Hb.
  assert (Hr : in_range T (Z.rem a b)).
  { pose proof (rem_bounded a b). pose proof (rem_sign_of_dividend a b).
    revert Ha Hb. each_type T; limits; intros; lia. }
  split; [|exact Hr].
  unfold op_mod. cbv zeta. rewrite common_type_same.
  now rewrite (static_cast_id _ a), (static_cast_id _ b), static_cast_id
    by now apply promote_in_range.
Qed.

Lemma narrowing_in_range (C R : itype) (q result : Z) :
  in_range C q -> in_range R q ->
  cast_truncate C R q result = Ok (false, q).
Proof.
  intros HC HR.
  apply (cast_truncate_exact_above_min C R q result HC); [|exact HR].
  intros _. apply HR.
Qed.

(** With one type for the operands and the result, as [trapping<T>] calls
    them, the probes report failure exactly when the divisor is 0, or [T] is
    signed, the dividend is its minimum and the divisor is -1; otherwise they
    write the truncated quotient and its remainder. *)
Theorem div_mod_same_type (T : itype) (dividend divisor result : Z) :
  in_range T dividend -> in_range T divisor ->
  (div_overflow T T T dividend divisor result = Ok (true, result) <->
   divisor = 0
   \/ (is_signed T = true /\ dividend = numeric_limits_min T /\ divisor = -1))
  /\ (mod_overflow T T T dividend divisor result = Ok (true, result) <->
      divisor = 0
      \/ (is_signed T = true /\ dividend = numeric_limits_min T /\ divisor = -1))
  /\ (divisor <> 0 ->
      ~ (is_signed T = true /\ dividend = numeric_limits_min T /\ divisor = -1) ->
      div_overflow T T T dividend divisor result
        = Ok (false, Z.quot dividend divisor)
      /\ mod_overflow T T T dividend divisor result
         = Ok (false, Z.rem dividend divisor)).
Proof.
  intros Ha Hb. unfold div_overflow, mod_overflow.
  rewrite (op_eq_literal_0 T divisor Hb),
    (divide_min_by_negative_1_decides T T dividend divisor Ha Hb).
  destruct (Z.eqb_spec divisor 0) as [E0|E0].
  { repeat split; auto; contradiction. }
  destruct (is_signed T && (dividend =? numeric_limits_min T) && (divisor =? -1))
    eqn:Eguard.
  - apply andb_true_iff in Eguard as [Eguard E1].
    apply andb_true_iff in Eguard as [Es Emin].
    apply Z.eqb_eq in E1, Emin.
    repeat split; auto; intros; exfalso; auto.
  - assert (Hguard : ~ (is_signed T = true /\
                        dividend = numeric_limits_min T /\ divisor = -1)).
    { intros (Es & Emin & E1). subst dividend divisor.
      now rewrite Es, !Z.eqb_refl in Eguard. }
    destruct (native_quotient_same_type T dividend divisor Ha Hb Hguard)
      as [-> Hq].
    destruct (native_remainder_same_type T dividend divisor Ha Hb) as [-> Hr].
    rewrite !narrowing_in_range
      by (try assumption; rewrite common_type_same; now apply promote_in_range).
    repeat split; auto; try discriminate; intros [H|H]; contradiction.
Qed.

Lemma div_mod_same_type_witness :
  div_overflow int32_t int32_t int32_t (-7) 2 0 = Ok (false, -3)
  /\ mod_overflow int32_t int32_t int32_t (-7) 2 0 = Ok (false, -1).
Proof.
  assert (Ha : in_range int32_t (-7)) by (limits; lia).
  assert (Hb : in_range int32_t 2) by (limits; lia).
  destruct (div_mod_same_type int32_t (-7) 2 0 Ha Hb) as (_ & _ & Hok).
  apply Hok.
  - discriminate.
  - intros (_ & _ & E). discriminate E.
Defined.

(** C4, the claim as stated fails: dividing 1000 by 1, or taking 1000 modulo
    2000, with [int32_t] operands and an [int8_t] result reports failure,
    although the divisor is not 0 and the dividend is not the minimum. *)
Lemma div_mod_fail_on_narrowing :
  div_overflow int32_t int32_t int8_t 1000 1 0 = Ok (true, 0)
  /\ mod_overflow int32_t int32_t int8_t 1000 2000 0 = Ok (true, 0)
  /\ in_range int32_t 1000 /\ in_range int32_t 1 /\ in_range int32_t 2000
  /\ ~ (1 = 0 \/ (is_signed int32_t = true /\
                  1000 = numeric_limits_min int32_t /\ 1 = -1))
  /\ ~ (2000 = 0 \/ (is_signed int32_t = true /\
                     1000 = numeric_limits_min int32_t /\ 2000 = -1)).
Proof.
  repeat split; try (limits; lia); try reflexivity;
    intros [H|(_ & _ & H)]; discriminate H.
Qed.

(** C4, amended.  For operands in range (the pair of an unsigned dividend 0
    with a signed divisor -1 set aside; and, where neither guard applies, a
    natively computed quotient, respectively remainder, below the minimum of
    a signed [R] set aside), [div_overflow] and [mod_overflow] report failure
    exactly when the divisor is 0, or the dividend is the minimum of a signed
    [T] and the divisor is -1, or the natively computed quotient (remainder)
    is not representable in [R]; and when they do not report failure they
    write that quotient (remainder). *)
Theorem div_mod_probes_fail_iff (T U R : itype) (dividend divisor result : Z) :
  in_range T dividend -> in_range U divisor ->
  (is_signed T = false -> is_signed U = true ->
   ~ (dividend = 0 /\ divisor = -1)) ->
  ((divisor <> 0 ->
    ~ (is_signed T = true /\ dividend = numeric_limits_min T /\ divisor = -1) ->
    is_signed R = true ->
    numeric_limits_min R <= op_div T U dividend divisor) ->
   (div_overflow T U R dividend divisor result = Ok (true, result) <->
    divisor = 0
    \/ (is_signed T = true /\ dividend = numeric_limits_min T /\ divisor = -1)
    \/ ~ in_range R (op_div T U dividend divisor))
   /\ (div_overflow T U R dividend divisor result = Ok (true, result) \/
       div_overflow T U R dividend divisor result
         = Ok (false, op_div T U dividend divisor)))
  /\ ((divisor <> 0 ->
       ~ (is_signed T = true /\ dividend = numeric_limits_min T /\ divisor = -1) ->
       is_signed R = true ->
       numeric_limits_min R <= op_mod T U dividend divisor) ->
      (mod_overflow T U R dividend divisor result = Ok (true, result) <->
       divisor = 0
       \/ (is_signed T = true /\ dividend = numeric_limits_min T /\ divisor = -1)
       \/ ~ in_range R (op_mod T U dividend divisor))
      /\ (mod_overflow T U R dividend divisor result = Ok (true, result) \/
          mod_overflow T U R dividend divisor result
            = Ok (false, op_mod T U dividend divisor))).
Proof.
  intros Ha Hb Hslip. split; intros Hmin.
  - apply (guarded_narrowing_fails_iff T U R dividend divisor
             (op_div T U dividend divisor) result Ha Hb);
      [apply static_cast_in_range | assumption | assumption].
  - apply (guarded_narrowing_fails_iff T U R dividend divisor
             (op_mod T U dividend divisor) result Ha Hb);
      [apply static_cast_in_range | assumption | assumption].
Qed.

Lemma div_mod_probes_fail_iff_witness :
  (div_overflow int32_t int32_t int8_t (-2147483648) (-1) 0 = Ok (true, 0) <->
   -1 = 0
   \/ (is_signed int32_t = true /\
       -2147483648 = numeric_limits_min int32_t /\ -1 = -1)
   \/ ~ in_range int8_t (op_div int32_t int32_t (-2147483648) (-1)))
  /\ (mod_overflow int32_t int32_t int8_t (-1000) 0 0 = Ok (true, 0) <->
      0 = 0
      \/ (is_signed int32_t = true /\
          -1000 = numeric_limits_min int32_t /\ 0 = -1)
      \/ ~ in_range int8_t (op_mod int32_t int32_t (-1000) 0))
  /\ div_overflow int32_t int32_t int8_t (-1000) 3000 0 = Ok (false, 0).
Proof.
  assert (Hmin : in_range int32_t (-2147483648)) by (limits; lia).
  assert (Hm1 : in_range int32_t (-1)) by (limits; lia).
  assert (Ha : in_range int32_t (-1000)) by (limits; lia).
  assert (H0 : in_range int32_t 0) by (limits; lia).
  assert (Hb : in_range int32_t 3000) by (limits; lia).
  split; [|split].
  - apply (div_mod_probes_fail_iff int32_t int32_t int8_t (-2147483648) (-1) 0
             Hmin Hm1); [discriminate|].
    intros _ Hguard. elim Hguard. repeat split.
  - apply (div_mod_probes_fail_iff int32_t int32_t int8_t (-1000) 0 0 Ha H0);
      [discriminate|].
    intros Hnz. now elim Hnz.
  - destruct (div_mod_probes_fail_iff int32_t int32_t int8_t (-1000) 3000 0
                Ha Hb ltac:(discriminate)) as [Hdiv _].
    destruct Hdiv as [Hiff [Hfail | Hok]].
    + intros _ _ _. vm_compute. discriminate.
    + apply Hiff in Hfail. exfalso.
      destruct Hfail as [E | [(_ & E & _) | Hout]]; try discriminate E.
      apply Hout. vm_compute. split; discriminate.
    + exact Hok.
Defined.

(** ** The trapping entry points *)

Lemma cast_truncate_followed (T R : itype) (value result : Z) :
  follows_probe (cast_truncate T R value result) (trapping_cast T R value).
Proof.
  unfold trapping_cast. cbv zeta.
  destruct (cast_truncate_returns T R value result) as [E|E]; rewrite E;
    cbn [follows_probe].
  - apply (cast_truncate_flag_independent T R value result 0) in E.
    now rewrite E.
  - destruct (cast_truncate_returns T R value 0) as [E0|E0]; rewrite E0.
    + apply (cast_truncate_flag_independent T R value 0 result) in E0.
      congruence.
    + reflexivity.
Qed.

Lemma builtin_followed (probe : bool * Z) :
  follows_probe (Ok probe)
    (let '(overflowed, result) := probe in when overflowed trap ;; ret result).
Proof. now destruct probe as [[|] r]. Qed.

(** C5. Each trapping entry point follows its probe, whatever [*result] holds
    when the probe is called: when the probe reports success the entry point
    returns the value the probe computed, and when it reports failure the
    entry point calls [trap] and does not return. *)
Theorem trapping_entry_points_follow_probes (T U R : itype) (x y result : Z) :
  follows_probe (cast_truncate T R x result) (trapping_cast T R x)
  /\ follows_probe (Ok (add_overflow T U R x y result)) (trapping_add T U R x y)
  /\ follows_probe (Ok (sub_overflow T U R x y result)) (trapping_sub T U R x y)
  /\ follows_probe (Ok (mul_overflow T U R x y result)) (trapping_mul T U R x y)
  /\ follows_probe (div_overflow T U R x y result) (trapping_div T U R x y)
  /\ follows_probe (mod_overflow T U R x y result) (trapping_mod T U R x y).
Proof.
  split; [apply cast_truncate_followed|].
  split; [apply (builtin_followed (builtin_add_overflow R x y))|].
  split; [apply (builtin_followed (builtin_sub_overflow R x y))|].
  split; [apply (builtin_followed (builtin_mul_overflow R x y))|].
  split.
  - unfold trapping_div, div_overflow. cbv zeta.
    destruct (op_eq U int y 0); [reflexivity|].
    destruct (divide_min_by_negative_1 T U x y); [reflexivity|].
    apply cast_truncate_followed.
  - unfold trapping_mod, mod_overflow. cbv zeta.
    destruct (op_eq U int y 0); [reflexivity|].
    destruct (divide_min_by_negative_1 T U x y); [reflexivity|].
    apply cast_truncate_followed.
Qed.

(** ** The value type *)

Ltac run_method :=
  cbv beta delta [operator_add_assign operator_sub_assign operator_mul_assign
    operator_div_assign operator_mod_assign operator_shr_assign
    operator_shl_assign operator_pre_inc operator_post_inc operator_pre_dec
    operator_post_dec operator_neg when call];
  cbn [bind ret Monad_method get put].

(** ** Arithmetic operators *)

Lemma builtin_overflow_decides (op : Z -> Z -> Z) (R : itype) (x y : Z) :
  builtin_overflow op R x y =
    if in_rangeb R (op x y) then (false, op x y)
    else (true, static_cast R (op x y)).
Proof.
  unfold builtin_overflow. cbv zeta.
  destruct (in_rangeb R (op x y)) eqn:ER.
  - apply in_rangeb_true_iff, static_cast_id in ER. rewrite ER.
    now rewrite Z.eqb_refl.
  - apply in_rangeb_false_iff in ER. rewrite <- static_cast_fixed_iff in ER.
    apply Z.eqb_neq in ER. now rewrite ER.
Qed.

(** Binary [+], [-] and [*] return the exact result when it is a value of
    [T] and trap otherwise; increment and decrement are [+= 1] and [-= 1]. *)
Theorem arithmetic_operators_trap_iff (T : itype) (a b : Z) :
  operator_add T (Trapping a) (Trapping b)
    = (if in_rangeb T (a + b) then Ok (Trapping (a + b)) else Trap)
  /\ operator_sub T (Trapping a) (Trapping b)
     = (if in_rangeb T (a - b) then Ok (Trapping (a - b)) else Trap)
  /\ operator_mul T (Trapping a) (Trapping b)
     = (if in_rangeb T (a * b) then Ok (Trapping (a * b)) else Trap)
  /\ operator_pre_inc T (Trapping a)
     = (if in_rangeb T (a + 1) then Returned this_object (Trapping (a + 1))
        else Trapped (Trapping a))
  /\ operator_pre_dec T (Trapping a)
     = (if in_rangeb T (a - 1) then Returned this_object (Trapping (a - 1))
        else Trapped (Trapping a)).
Proof.
  assert (H1 : static_cast T 1 = 1)
    by (apply static_cast_id; each_type T; limits; lia).
  unfold operator_add, operator_sub, operator_mul, on_local, operator_T.
  run_method. cbn [value_]. rewrite H1.
  unfold trapping_add, trapping_sub, trapping_mul, add_overflow, sub_overflow,
    mul_overflow, builtin_add_overflow, builtin_sub_overflow,
    builtin_mul_overflow.
  cbv zeta. rewrite !builtin_overflow_decides.
  destruct (in_rangeb T (a + b)), (in_rangeb T (a - b)), (in_rangeb T (a * b)),
    (in_rangeb T (a + 1)), (in_rangeb T (a - 1)); repeat split.
Qed.

(** The concrete scenarios of the specification. *)
Theorem specification_scenarios :
  operator_add int8_t (Trapping 127) (Trapping 1) = Trap
  /\ operator_add uint8_t (Trapping 200) (Trapping 100) = Trap
  /\ cast_truncate int32_t int8_t 200 0 = Ok (true, 0)
  /\ cast_truncate int32_t uint32_t (-1) 0 = Ok (true, 0)
  /\ operator_div int32_t (Trapping (numeric_limits_min int32_t)) (Trapping (-1))
     = Trap
  /\ operator_mod int32_t (Trapping 5) (Trapping 0) = Trap
  /\ operator_shl uint8_t (Trapping 1) (Trapping 8) = Trap.
Proof. repeat split. Qed.

(** [divide_min_by_negative_1] tests the signedness of the divisor's type
    only: an unsigned dividend 0, the minimum of its type, divided by a signed
    -1 is reported as a failure. *)
Theorem unsigned_zero_by_minus_1_reported (result : Z) :
  div_overflow uint32_t int32_t int32_t 0 (-1) result = Ok (true, result)
  /\ mod_overflow uint32_t int32_t int32_t 0 (-1) result = Ok (true, result).
Proof. split; reflexivity. Qed.

(** ** Shifts *)

Lemma shiftr_between (v x : Z) :
  0 <= x ->
  (0 <= v -> 0 <= Z.shiftr v x <= v) /\ (v < 0 -> v <= Z.shiftr v x < 0).
Proof.
  intros Hx. rewrite Z.shiftr_div_pow2 by assumption.
  pose proof (Z.pow_pos_nonneg 2 x ltac:(lia) Hx).
  Z.to_euclidean_division_equations; nia.
Qed.

(** Converting to the promoted type first does not change a conversion to
    [T]. *)
Lemma static_cast_promote (T : itype) (z : Z) :
  static_cast T (static_cast (promote T) z) = static_cast T z.
Proof.
  unfold static_cast; each_type T; limits; by_cases; modular.
Qed.

Section shifts.

(** A [trapping<T>] holding [v], shifted by an amount [x] of type [T]. *)
Variable T : itype.
Variables x v : Z.
Hypothesis Hx : in_range T x.
Hypothesis Hv : in_range T v.

Lemma last_bit_value : last_bit T = bits T - 1.
Proof. clear. now each_type T. Qed.

Lemma bits_as_size_t : op_mul int size_t CHAR_BIT (sizeof T) = bits T.
Proof. clear. now each_type T. Qed.

(** The guard of both shift operators is the mathematical range check, also
    where the comparison with the [size_t] bound converts a negative amount
    to a large unsigned one. *)
Lemma shift_amount_check :
  op_lt T int x 1 || op_gt T size_t x (last_bit T) =
    negb ((1 <=? x) && (x <=? bits T - 1)).
Proof.
  rewrite last_bit_value. unfold op_lt, op_gt.
  rewrite (compare_in_exact Z.ltb T int x 1)
    by (clear Hv; revert Hx; each_type T; limits; lia).
  destruct (Z.ltb_spec x 1) as [Hlt|Hge]; cbn [orb].
  - destruct (Z.leb_spec 1 x); [lia|reflexivity].
  - rewrite compare_in_exact
      by (clear Hv; revert Hx; each_type T; limits; lia).
    rewrite Z.gtb_ltb. by_cases; cbn [andb negb]; try reflexivity; lia.
Qed.

Lemma remaining_bits :
  1 <= x <= bits T - 1 ->
  op_sub size_t T (op_mul int size_t CHAR_BIT (sizeof T)) x = bits T - x.
Proof.
  intros Hamount. rewrite bits_as_size_t. unfold op_sub. cbv zeta.
  assert (HC : common_type size_t T = uint64_t) by (clear; now each_type T).
  rewrite HC.
  rewrite (static_cast_id uint64_t x), (static_cast_id uint64_t (bits T)),
    static_cast_id; try reflexivity;
    revert Hamount; clear; each_type T; limits; lia.
Qed.

Lemma op_shr_value : 0 <= x -> static_cast T (op_shr T v x) = Z.shiftr v x.
Proof.
  intros Hamount. unfold op_shr. cbv zeta.
  assert (Hs : in_range T (Z.shiftr v x)).
  { pose proof (shiftr_between v x Hamount). clear Hx. revert Hv.
    each_type T; limits; lia. }
  now rewrite (static_cast_id _ v), (static_cast_id (promote T)), static_cast_id
    by auto with ranges.
Qed.

Lemma op_shl_value (a n : Z) :
  in_range T a -> 0 <= n ->
  static_cast T (op_shl T a n) = static_cast T (a * 2 ^ n).
Proof.
  intros Ha Hn. unfold op_shl. cbv zeta.
  rewrite (static_cast_id _ a) by auto with ranges.
  now rewrite static_cast_promote, Z.shiftl_mul_pow2.
Qed.

(** Both shifts trap on an amount outside [1 .. bits - 1]; [operator>>=]
    traps only then, and otherwise stores the value shifted right. *)
Theorem shift_amount_checked :
  (operator_shr_assign T x (Trapping v) = Trapped (Trapping v) <->
   x < 1 \/ bits T - 1 < x)
  /\ (1 <= x <= bits T - 1 ->
      operator_shr_assign T x (Trapping v)
        = Returned this_object (Trapping (Z.shiftr v x)))
  /\ (x < 1 \/ bits T - 1 < x ->
      operator_shl_assign T x (Trapping v) = Trapped (Trapping v)).
Proof.
  run_method. cbn [trap value_].
  rewrite shift_amount_check.
  destruct (Z.leb_spec 1 x); destruct (Z.leb_spec x (bits T - 1));
    cbn [andb negb value_];
    try rewrite op_shr_value by lia;
    repeat split; intros; try reflexivity; try discriminate; lia.
Qed.

(** What [operator<<=] does with a shift amount in range: it traps when the
    value exceeds [x << (bits - x)] converted to [T], and stores the shifted
    value converted to [T] otherwise. *)
Theorem shl_assign_runs :
  1 <= x <= bits T - 1 ->
  operator_shl_assign T x (Trapping v) =
    if static_cast T (x * 2 ^ (bits T - x)) <? v
    then Trapped (Trapping v)
    else Returned this_object (Trapping (static_cast T (v * 2 ^ x))).
Proof.
  intros Hamount. run_method. cbn [trap value_].
  rewrite shift_amount_check.
  replace ((1 <=? x) && (x <=? bits T - 1)) with true
    by (symmetry; apply andb_true_iff; split; apply Z.leb_le; lia).
  cbn [negb]. rewrite (remaining_bits Hamount).
  rewrite !op_shl_value by (assumption || lia).
  unfold op_gt. rewrite compare_in_exact, Z.gtb_ltb.
  - cbn [value_]. destruct (_ <? v); [reflexivity|]. cbn [value_].
    now rewrite op_shl_value by (assumption || lia).
  - rewrite common_type_same. auto with ranges.
  - rewrite common_type_same. auto with ranges.
Qed.

End shifts.

Lemma shift_amount_checked_witness :
  operator_shr_assign int8_t 1 (Trapping (-3))
    = Returned this_object (Trapping (Z.shiftr (-3) 1)).
Proof.
  assert (Hx : in_range int8_t 1) by (limits; lia).
  assert (Hv : in_range int8_t (-3)) by (limits; lia).
  destruct (shift_amount_checked int8_t 1 (-3) Hx Hv) as (_ & Hin & _).
  apply Hin. limits. lia.
Defined.

Lemma shl_assign_runs_witness :
  operator_shl_assign uint32_t 1 (Trapping 2147483648)
    = Returned this_object (Trapping 0).
Proof.
  apply (shl_assign_runs uint32_t 1 2147483648); limits; lia.
Defined.

(** C2. The overflow check of [operator<<=] compares the value with
    [x << (bits - x)], which is not the largest value that can be shifted by
    [x] without loss.  [trapping<uint8_t>(128) <<= 1] does not trap and leaves
    0, although 128 exceeds 127, the largest such value, so that its top bit is
    lost; and [trapping<int8_t>(1) <<= 1] traps, although 2 is representable
    and no bit would be lost. *)
Theorem shl_assign_overflow_check_misses :
  operator_shl_assign uint8_t 1 (Trapping 128)
    = Returned this_object (Trapping 0)
  /\ in_range uint8_t 128
  /\ Z.shiftr (numeric_limits_max uint8_t) 1 < 128
  /\ ~ in_range uint8_t (Z.shiftl 128 1)
  /\ operator_shl_assign int8_t 1 (Trapping 1) = Trapped (Trapping 1)
  /\ in_range int8_t (Z.shiftl 1 1).
Proof.
  repeat split; try (vm_compute; congruence).
  intros [_ H]. vm_compute in H. now apply H.
Qed.

(** ** Bitwise operators *)

(** C3. No bitwise operator of [trapping<T>] yields a value: [operator|=],
    [operator&=] and [operator^=] read [x.value_] on their [const T&]
    parameter, which is ill-formed for the integral [T], so they cannot be
    instantiated for any [T], and neither can binary [|], [&] and [^], which
    call them.  An expression such as
    [trapping<uint8_t>(1) ^ trapping<uint8_t>(1)] is rejected instead of
    returning the bitwise XOR. *)
Theorem bitwise_operators_ill_formed (T : itype) (lhs rhs : trapping T) (x : Z) :
  operator_or_assign T x = Ill_formed
  /\ operator_and_assign T x = Ill_formed
  /\ operator_xor_assign T x = Ill_formed
  /\ operator_or T lhs rhs = Ill_formed
  /\ operator_and T lhs rhs = Ill_formed
  /\ operator_xor T lhs rhs = Ill_formed.
Proof. repeat split. Qed.

(** ** Unary minus *)

(** The value unary minus stores, for an operand that is not the minimum of a
    signed type. *)
Lemma negated_value (T : itype) (v : Z) :
  in_range T v ->
  (is_signed T = true -> v <> numeric_limits_min T) ->
  static_cast T (op_neg T v) =
    if is_signed T then - v else (2 ^ bits T - v) mod 2 ^ bits T.
Proof.
  unfold op_neg, static_cast.
  each_type T; limits; intros Hv Hmin;
    try specialize (Hmin eq_refl); by_cases; modular.
Qed.

(** What unary minus does on an object holding a value of [T]. *)
Lemma operator_neg_runs (T : itype) (v : Z) :
  in_range T v ->
  operator_neg T (Trapping v) =
    if is_signed T && (v =? numeric_limits_min T)
    then Trapped (Trapping v)
    else Returned this_object
           (Trapping (if is_signed T then - v
                      else (2 ^ bits T - v) mod 2 ^ bits T)).
Proof.
  intros Hv. run_method. cbn [value_].
  rewrite (op_eq_same_type T v _ Hv (numeric_limits_min_in_range T)).
  destruct (is_signed T) eqn:Es; cbn [andb].
  - destruct (Z.eqb_spec v (numeric_limits_min T)) as [E|E]; [reflexivity|].
    rewrite negated_value, Es; auto.
  - rewrite negated_value, Es; auto; congruence.
Qed.

(** C9. Unary minus mutates its operand: when it does not trap, it stores the
    negated value into the object it is called on and returns that object. *)
Theorem operator_neg_stores_into_operand (T : itype) (v : Z) :
  in_range T v ->
  (forall s, operator_neg T (Trapping v) <> Trapped s) ->
  operator_neg T (Trapping v) =
    Returned this_object
      (Trapping (if is_signed T then - v else (2 ^ bits T - v) mod 2 ^ bits T)).
Proof.
  intros Hv Hrun. rewrite (operator_neg_runs T v Hv) in *.
  destruct (is_signed T && (v =? numeric_limits_min T)); [|reflexivity].
  now elim (Hrun (Trapping v)).
Qed.

Lemma operator_neg_stores_into_operand_witness :
  operator_neg int8_t (Trapping 5) = Returned this_object (Trapping (-5)).
Proof.
  apply (operator_neg_stores_into_operand int8_t 5).
  - unfold in_range; vm_compute; split; discriminate.
  - intros s; vm_compute; discriminate.
Defined.

(** C10. For an unsigned [T] unary minus never traps, and the value it leaves
    in the object is [(2 ^ bits T - v) mod 2 ^ bits T]; negating 0 gives 0. *)
Theorem unsigned_neg_is_modular (T : itype) (v : Z) :
  is_signed T = false ->
  in_range T v ->
  operator_neg T (Trapping v) =
    Returned this_object (Trapping ((2 ^ bits T - v) mod 2 ^ bits T))
  /\ operator_neg T (Trapping 0) = Returned this_object (Trapping 0).
Proof.
  intros Hu Hv. split.
  - now rewrite (operator_neg_runs T v Hv), Hu.
  - rewrite operator_neg_runs, Hu; cbn [andb].
    + now rewrite Z.sub_0_r, Z.mod_same by (each_type T; discriminate).
    + revert Hu; each_type T; try discriminate; limits; lia.
Qed.

Lemma unsigned_neg_is_modular_witness :
  operator_neg uint8_t (Trapping 1) = Returned this_object (Trapping 255)
  /\ operator_neg uint8_t (Trapping 0) = Returned this_object (Trapping 0).
Proof.
  apply (unsigned_neg_is_modular uint8_t 1).
  - reflexivity.
  - unfold in_range; vm_compute; split; discriminate.
Defined.

(** * Further properties of the operators *)

(** ** Comparisons *)

Lemma compare_same_type (op : Z -> Z -> bool) (T : itype) (a b : Z) :
  in_range T a -> in_range T b -> compare_in op T T a b = op a b.
Proof.
  intros Ha Hb. apply compare_in_exact; rewrite common_type_same;
    auto with ranges.
Qed.

(** The comparison operators decide the order of the integers the two
    objects hold, and the comparisons with a raw [T] likewise; [==] holds
    exactly between equal objects. *)
Theorem comparisons_are_the_integer_order (T : itype) (a b : Z) :
  in_range T a -> in_range T b ->
  operator_lt T (Trapping a) (Trapping b) = (a <? b)
  /\ operator_gt T (Trapping a) (Trapping b) = (b <? a)
  /\ operator_le T (Trapping a) (Trapping b) = (a <=? b)
  /\ operator_ge T (Trapping a) (Trapping b) = (b <=? a)
  /\ operator_eq T (Trapping a) (Trapping b) = (a =? b)
  /\ operator_ne T (Trapping a) (Trapping b) = negb (a =? b)
  /\ operator_lt_T T (Trapping a) b = (a <? b)
  /\ operator_eq_T T (Trapping a) b = (a =? b)
  /\ operator_ne_T T (Trapping a) b = negb (a =? b)
  /\ (operator_eq T (Trapping a) (Trapping b) = true <->
      @Trapping T a = Trapping b).
Proof.
  intros Ha Hb.
  unfold operator_le, operator_ge, operator_gt, operator_ne, operator_ne_T,
    operator_lt, operator_eq, operator_lt_T, operator_eq_T, op_lt, op_eq.
  cbn [value_]. rewrite !compare_same_type by assumption.
  rewrite !Z.leb_antisym, Z.eqb_eq. repeat split; try congruence.
Qed.

Lemma comparisons_are_the_integer_order_witness :
  operator_le int8_t (Trapping (-128)) (Trapping 127) = (-128 <=? 127).
Proof.
  assert (Ha : in_range int8_t (-128)) by (limits; lia).
  assert (Hb : in_range int8_t 127) by (limits; lia).
  destruct (comparisons_are_the_integer_order int8_t (-128) 127 Ha Hb)
    as (_ & _ & Hle & _).
  exact Hle.
Defined.

(** ** Conversions *)

(** A representable value passes the test [cast_truncate] makes. *)
Lemma in_range_not_rejected (R : itype) (v : Z) :
  in_range R v ->
  (numeric_limits_max R <? v) || (negb (is_signed R) && (v <? 0)) = false.
Proof.
  unfold in_range, numeric_limits_min.
  destruct (is_signed R); cbn [negb andb]; intros HR; by_cases; cbn [orb];
    try reflexivity; lia.
Qed.

(** What [trapping_cast] does on a value of [T]. *)
Lemma trapping_cast_decides (T R : itype) (value : Z) :
  in_range T value ->
  trapping_cast T R value =
    if (numeric_limits_max R <? value) || (negb (is_signed R) && (value <? 0))
    then Trap
    else Ok (static_cast R value).
Proof.
  intros Hv. unfold trapping_cast. cbv zeta.
  rewrite (cast_truncate_decides T R value 0 Hv).
  now destruct (_ || _).
Qed.

(** The conversion of a [trapping<T>] to another integral type [U] returns
    the contained value whenever [U] can represent it, so that such a value
    goes to [U] and back unchanged without a trap; it traps when the value is
    above [U]'s maximum, or negative with [U] unsigned, and only then; and
    whatever it returns is a value of [U]. *)
Theorem conversion_operator (T U : itype) (v : Z) :
  in_range T v ->
  (in_range U v ->
   operator_U T U (Trapping v) = Ok v /\ operator_U U T (Trapping v) = Ok v)
  /\ (operator_U T U (Trapping v) = Trap <->
      numeric_limits_max U < v \/ (is_signed U = false /\ v < 0))
  /\ (forall r, operator_U T U (Trapping v) = Ok r -> in_range U r).
Proof.
  intros Hv. unfold operator_U. cbn [value_].
  split; [intros HU; split | split; [split|]].
  - now rewrite (trapping_cast_decides T U v Hv), in_range_not_rejected,
      static_cast_id.
  - now rewrite (trapping_cast_decides U T v HU), in_range_not_rejected,
      static_cast_id.
  - rewrite (trapping_cast_decides T U v Hv).
    destruct (is_signed U); cbn [negb andb]; by_cases; cbn [orb];
      intros E; try discriminate E; auto; lia.
  - rewrite (trapping_cast_decides T U v Hv).
    intros [Hmax | [Hu Hneg]]; [|rewrite Hu; cbn [negb andb]]; by_cases;
      cbn [orb]; try reflexivity; lia.
  - intros r. rewrite (trapping_cast_decides T U v Hv).
    destruct (_ || _); [discriminate|]. intros [= <-].
    apply static_cast_in_range.
Qed.

Lemma conversion_operator_witness :
  operator_U int32_t uint8_t (Trapping 200) = Ok 200
  /\ operator_U uint8_t int32_t (Trapping 200) = Ok 200.
Proof.
  assert (Hv : in_range int32_t 200) by (limits; lia).
  destruct (conversion_operator int32_t uint8_t 200 Hv) as (Hback & _).
  apply Hback. limits. lia.
Defined.

(** A conversion to a type that holds every value of [T] never traps. *)
Theorem widening_conversion_never_traps (T U : itype) (v : Z) :
  numeric_limits_min U <= numeric_limits_min T ->
  numeric_limits_max T <= numeric_limits_max U ->
  in_range T v ->
  operator_U T U (Trapping v) = Ok v
  /\ cast_truncate T U v 0 = Ok (false, v).
Proof.
  intros Hlo Hhi Hv.
  assert (HU : in_range U v) by (unfold in_range in *; lia).
  split.
  - unfold operator_U. cbn [value_].
    now rewrite (trapping_cast_decides T U v Hv), in_range_not_rejected,
      static_cast_id.
  - now apply narrowing_in_range.
Qed.

Lemma widening_conversion_never_traps_witness :
  operator_U uint16_t int32_t (Trapping 65535) = Ok 65535
  /\ cast_truncate uint16_t int32_t 65535 0 = Ok (false, 65535).
Proof.
  apply (widening_conversion_never_traps uint16_t int32_t 65535); limits; lia.
Defined.

(** ** Division operators *)

Section same_type_division.

Variable T : itype.
Variables a b : Z.
Hypothesis Ha : in_range T a.
Hypothesis Hb : in_range T b.

Lemma division_guard_false :
  division_guard T a b = false ->
  b <> 0 /\
  ~ (is_signed T = true /\ a = numeric_limits_min T /\ b = -1).
Proof.
  unfold division_guard. intros E.
  apply orb_false_iff in E as [E0 Eg]. apply Z.eqb_neq in E0.
  split; [assumption|]. intros (Es & Ea & Eb).
  now rewrite Es, Ea, Eb, !Z.eqb_refl in Eg.
Qed.

Lemma div_overflow_same_type_decides (result : Z) :
  div_overflow T T T a b result =
    if division_guard T a b then Ok (true, result) else Ok (false, Z.quot a b).
Proof.
  destruct (division_guard T a b) eqn:Eg.
  - unfold div_overflow, division_guard in *.
    rewrite (op_eq_literal_0 T b Hb),
      (divide_min_by_negative_1_decides T T a b Ha Hb).
    destruct (b =? 0); [reflexivity|]. cbn [orb] in Eg. now rewrite Eg.
  - pose proof (division_guard_false Eg) as [H0 Hg].
    unfold div_overflow, division_guard in *.
    rewrite (op_eq_literal_0 T b Hb),
      (divide_min_by_negative_1_decides T T a b Ha Hb).
    apply orb_false_iff in Eg as [-> ->].
    destruct (native_quotient_same_type T a b Ha Hb Hg) as [-> Hq].
    apply narrowing_in_range; [|assumption].
    rewrite common_type_same. auto with ranges.
Qed.

Lemma mod_overflow_same_type_decides (result : Z) :
  mod_overflow T T T a b result =
    if division_guard T a b then Ok (true, result) else Ok (false, Z.rem a b).
Proof.
  destruct (division_guard T a b) eqn:Eg.
  - unfold mod_overflow, division_guard in *.
    rewrite (op_eq_literal_0 T b Hb),
      (divide_min_by_negative_1_decides T T a b Ha Hb).
    destruct (b =? 0); [reflexivity|]. cbn [orb] in Eg. now rewrite Eg.
  - unfold mod_overflow, division_guard in *.
    rewrite (op_eq_literal_0 T b Hb),
      (divide_min_by_negative_1_decides T T a b Ha Hb).
    apply orb_false_iff in Eg as [-> ->].
    destruct (native_remainder_same_type T a b Ha Hb) as [-> Hr].
    apply narrowing_in_range; [|assumption].
    rewrite common_type_same. auto with ranges.
Qed.

(** [/], [%], [/=] and [%=] trap on a zero divisor and on the minimum of a
    signed type divided by -1, and on nothing else; otherwise they give the
    quotient truncated towards zero and its remainder, which recompose the
    dividend, the remainder being smaller in magnitude than the divisor. *)
Theorem division_operators :
  operator_div T (Trapping a) (Trapping b)
    = (if division_guard T a b then Trap else Ok (Trapping (Z.quot a b)))
  /\ operator_mod T (Trapping a) (Trapping b)
     = (if division_guard T a b then Trap else Ok (Trapping (Z.rem a b)))
  /\ operator_div_assign T b (Trapping a)
     = (if division_guard T a b then Trapped (Trapping a)
        else Returned this_object (Trapping (Z.quot a b)))
  /\ operator_mod_assign T b (Trapping a)
     = (if division_guard T a b then Trapped (Trapping a)
        else Returned this_object (Trapping (Z.rem a b)))
  /\ (forall q r : trapping T,
        operator_div T (Trapping a) (Trapping b) = Ok q ->
        operator_mod T (Trapping a) (Trapping b) = Ok r ->
        b * value_ q + value_ r = a /\ Z.abs (value_ r) < Z.abs b).
Proof.
  unfold operator_div, operator_mod, on_local, operator_T.
  run_method. cbn [value_]. unfold trapping_div, trapping_mod. cbv zeta.
  rewrite div_overflow_same_type_decides, mod_overflow_same_type_decides.
  destruct (division_guard T a b) eqn:Eg;
    cbn [bind ret Monad_completion Monad_method get put when trap].
  - repeat (split; [reflexivity|]). discriminate.
  - pose proof (division_guard_false Eg) as [H0 _].
    repeat (split; [reflexivity|]).
    intros q r [= <-] [= <-]. cbn [value_].
    split; [symmetry; apply Z.quot_rem' | now apply Z.rem_bound_abs].
Qed.

End same_type_division.

Lemma division_operators_witness :
  operator_div int8_t (Trapping (-7)) (Trapping 2) = Ok (Trapping (-3))
  /\ operator_mod int8_t (Trapping (-7)) (Trapping 2) = Ok (Trapping (-1)).
Proof.
  assert (Ha : in_range int8_t (-7)) by (limits; lia).
  assert (Hb : in_range int8_t 2) by (limits; lia).
  destruct (division_operators int8_t (-7) 2 Ha Hb) as (Hd & Hm & _).
  split; [exact Hd | exact Hm].
Defined.

(** ** Division of operands of different widths *)

(** With operand types of one signedness the operands are converted to the
    common type unchanged, and native division is the truncating division of
    the integers. *)
Lemma native_division_like_signedness (T U : itype) (a b : Z) :
  in_range T a -> in_range U b -> is_signed T = is_signed U ->
  ~ (is_signed T = true /\ a = numeric_limits_min T /\ b = -1) ->
  (op_div T U a b = Z.quot a b /\ in_range (common_type T U) (Z.quot a b))
  /\ (op_mod T U a b = Z.rem a b /\ in_range (common_type T U) (Z.rem a b)).
Proof.
  intros Ha Hb Hlike Hguard.
  assert (HCa : in_range (common_type T U) a)
    by (revert Ha Hlike; clear; each_type T; each_type U; try discriminate;
        limits; lia).
  assert (HCb : in_range (common_type T U) b)
    by (revert Hb Hlike; clear; each_type T; each_type U; try discriminate;
        limits; lia).
  assert (Hq : in_range (common_type T U) (Z.quot a b)).
  { pose proof (quot_bounded a b). pose proof (quot_nonneg a b).
    pose proof (quot_negates_only_by_minus_1 a b).
    revert Ha Hb Hlike Hguard. clear HCa HCb.
    each_type T; each_type U; try discriminate; limits; intros; lia. }
  assert (Hr : in_range (common_type T U) (Z.rem a b)).
  { pose proof (rem_bounded a b). pose proof (rem_sign_of_dividend a b).
    revert Ha Hb Hlike. clear HCa HCb Hq Hguard.
    each_type T; each_type U; try discriminate; limits; intros; lia. }
  unfold op_div, op_mod. cbv zeta.
  rewrite (static_cast_id _ a HCa), (static_cast_id _ b HCb).
  now rewrite (static_cast_id _ _ Hq), (static_cast_id _ _ Hr).
Qed.

(** For operand types of one signedness, whatever their widths, and a
    non-zero divisor other than the guarded [min / -1]: [div_overflow] and
    [mod_overflow] write the mathematical quotient (truncated towards zero)
    and its remainder when [R] can represent them, and report failure when
    they lie above [R]'s maximum or are negative with [R] unsigned. *)
Theorem div_mod_exact_for_like_signedness
  (T U R : itype) (a b result : Z) :
  in_range T a -> in_range U b -> is_signed T = is_signed U ->
  b <> 0 ->
  ~ (is_signed T = true /\ a = numeric_limits_min T /\ b = -1) ->
  (in_range R (Z.quot a b) ->
   div_overflow T U R a b result = Ok (false, Z.quot a b))
  /\ (numeric_limits_max R < Z.quot a b \/
      (is_signed R = false /\ Z.quot a b < 0) ->
      div_overflow T U R a b result = Ok (true, result))
  /\ (in_range R (Z.rem a b) ->
      mod_overflow T U R a b result = Ok (false, Z.rem a b))
  /\ (numeric_limits_max R < Z.rem a b \/
      (is_signed R = false /\ Z.rem a b < 0) ->
      mod_overflow T U R a b result = Ok (true, result)).
Proof.
  intros Ha Hb Hlike H0 Hguard.
  destruct (native_division_like_signedness T U a b Ha Hb Hlike Hguard)
    as [[Eq Hq] [Er Hr]].
  assert (Eg : divide_min_by_negative_1 T U a b = false).
  { rewrite (divide_min_by_negative_1_decides T U a b Ha Hb), <- Hlike.
    destruct (is_signed T) eqn:Es; [|reflexivity]. cbn [andb].
    destruct (Z.eqb_spec a (numeric_limits_min T)); [|reflexivity].
    destruct (Z.eqb_spec b (-1)); [|reflexivity]. tauto. }
  unfold div_overflow, mod_overflow.
  rewrite (op_eq_literal_0 U b Hb), Eg, Eq, Er.
  apply Z.eqb_neq in H0. rewrite H0.
  rewrite (cast_truncate_decides _ R _ result Hq),
    (cast_truncate_decides _ R _ result Hr).
  split; [|split; [|split]].
  - intros HR. now rewrite in_range_not_rejected, static_cast_id.
  - intros [Hmax | [Hu Hneg]]; [|rewrite Hu; cbn [negb andb]]; by_cases;
      cbn [orb]; try reflexivity; lia.
  - intros HR. now rewrite in_range_not_rejected, static_cast_id.
  - intros [Hmax | [Hu Hneg]]; [|rewrite Hu; cbn [negb andb]]; by_cases;
      cbn [orb]; try reflexivity; lia.
Qed.

Lemma div_mod_exact_for_like_signedness_witness :
  div_overflow int64_t int8_t int16_t (-70000) 3 0 = Ok (false, Z.quot (-70000) 3).
Proof.
  assert (Ha : in_range int64_t (-70000)) by (limits; lia).
  assert (Hb : in_range int8_t 3) by (limits; lia).
  assert (Hg : ~ (is_signed int64_t = true /\
                  -70000 = numeric_limits_min int64_t /\ 3 = -1))
    by (intros (_ & _ & E); discriminate E).
  destruct (div_mod_exact_for_like_signedness int64_t int8_t int16_t
              (-70000) 3 0 Ha Hb eq_refl ltac:(discriminate) Hg) as (Hd & _).
  apply Hd. vm_compute. split; discriminate.
Defined.

(** With a signed dividend and an unsigned divisor type at least as wide as
    the dividend's and as [int], the division is carried out in the unsigned
    type: [div_overflow] into that type reports success on a negative
    dividend and writes the quotient of its unsigned bit pattern, not the
    mathematical quotient. *)
Theorem signed_by_unsigned_division_is_unsigned
  (T U : itype) (a b result : Z) :
  is_signed T = true -> is_signed U = false ->
  sizeof int <= sizeof U -> sizeof T <= sizeof U ->
  in_range T a -> in_range U b -> a < 0 -> b <> 0 ->
  div_overflow T U U a b result = Ok (false, Z.quot (a + 2 ^ bits U) b)
  /\ 0 <= Z.quot (a + 2 ^ bits U) b.
Proof.
  intros Hs Hu Hint Hwide Ha Hb Hneg H0.
  assert (HC : common_type T U = U)
    by (revert Hs Hu Hint Hwide; clear; each_type T; each_type U;
        try discriminate; limits; intros; try lia; reflexivity).
  assert (Epat : static_cast U a = a + 2 ^ bits U /\
                 in_range U (a + 2 ^ bits U)).
  { revert Hs Hu Hint Hwide Ha Hneg. clear. unfold static_cast.
    each_type T; each_type U; try discriminate; limits; intros;
      try lia; (split; [modular | lia]). }
  destruct Epat as [Epat Hpat].
  assert (Hq : in_range U (Z.quot (a + 2 ^ bits U) b) /\
               0 <= Z.quot (a + 2 ^ bits U) b).
  { pose proof (quot_bounded (a + 2 ^ bits U) b).
    pose proof (quot_nonneg (a + 2 ^ bits U) b).
    revert Hu Hpat Hb. clear - H H1. unfold in_range, numeric_limits_min.
    intros ->. lia. }
  destruct Hq as [Hq Hq0]. split; [|exact Hq0].
  unfold div_overflow, divide_min_by_negative_1.
  rewrite (op_eq_literal_0 U b Hb), Hu. cbn [andb].
  apply Z.eqb_neq in H0. rewrite H0.
  unfold op_div. cbv zeta. rewrite HC, Epat, (static_cast_id U b Hb),
    (static_cast_id U _ Hq).
  now apply narrowing_in_range.
Qed.

Lemma signed_by_unsigned_division_is_unsigned_witness :
  div_overflow int32_t uint32_t uint32_t (-6) 2 0
    = Ok (false, Z.quot (-6 + 2 ^ bits uint32_t) 2).
Proof.
  apply (signed_by_unsigned_division_is_unsigned int32_t uint32_t (-6) 2 0);
    try reflexivity; try (limits; lia); discriminate.
Defined.

(** ** Sums, differences and products *)

Lemma trapping_add_decides (T U R : itype) (x y : Z) :
  trapping_add T U R x y = if in_rangeb R (x + y) then Ok (x + y) else Trap.
Proof.
  unfold trapping_add, add_overflow, builtin_add_overflow. cbv zeta.
  rewrite builtin_overflow_decides. now destruct (in_rangeb R (x + y)).
Qed.

Lemma trapping_sub_decides (T U R : itype) (x y : Z) :
  trapping_sub T U R x y = if in_rangeb R (x - y) then Ok (x - y) else Trap.
Proof.
  unfold trapping_sub, sub_overflow, builtin_sub_overflow. cbv zeta.
  rewrite builtin_overflow_decides. now destruct (in_rangeb R (x - y)).
Qed.

Lemma trapping_mul_decides (T U R : itype) (x y : Z) :
  trapping_mul T U R x y = if in_rangeb R (x * y) then Ok (x * y) else Trap.
Proof.
  unfold trapping_mul, mul_overflow, builtin_mul_overflow. cbv zeta.
  rewrite builtin_overflow_decides. now destruct (in_rangeb R (x * y)).
Qed.

(** [trapping_add], [trapping_sub] and [trapping_mul] return the exact
    result when the result type [R] can hold it and trap otherwise, whatever
    the operand types are: a returned value is never a wrapped one, and the
    operands of a sum or product can be exchanged. *)
Theorem trapping_arithmetic_exact_or_trap (T U R : itype) (x y : Z) :
  trapping_add T U R x y = (if in_rangeb R (x + y) then Ok (x + y) else Trap)
  /\ trapping_sub T U R x y = (if in_rangeb R (x - y) then Ok (x - y) else Trap)
  /\ trapping_mul T U R x y = (if in_rangeb R (x * y) then Ok (x * y) else Trap)
  /\ trapping_add T U R x y = trapping_add U T R y x
  /\ trapping_mul T U R x y = trapping_mul U T R y x.
Proof.
  rewrite !trapping_add_decides, !trapping_sub_decides, !trapping_mul_decides,
    (Z.add_comm y x), (Z.mul_comm y x).
  repeat split.
Qed.

Lemma operator_add_assign_decides (T : itype) (a x : Z) :
  operator_add_assign T x (Trapping a) =
    if in_rangeb T (a + x) then Returned this_object (Trapping (a + x))
    else Trapped (Trapping a).
Proof.
  run_method. cbn [value_]. rewrite trapping_add_decides.
  now destruct (in_rangeb T (a + x)).
Qed.

Lemma operator_sub_assign_decides (T : itype) (a x : Z) :
  operator_sub_assign T x (Trapping a) =
    if in_rangeb T (a - x) then Returned this_object (Trapping (a - x))
    else Trapped (Trapping a).
Proof.
  run_method. cbn [value_]. rewrite trapping_sub_decides.
  now destruct (in_rangeb T (a - x)).
Qed.

Lemma operator_mul_assign_decides (T : itype) (a x : Z) :
  operator_mul_assign T x (Trapping a) =
    if in_rangeb T (a * x) then Returned this_object (Trapping (a * x))
    else Trapped (Trapping a).
Proof.
  run_method. cbn [value_]. rewrite trapping_mul_decides.
  now destruct (in_rangeb T (a * x)).
Qed.

Lemma static_cast_1 (T : itype) : static_cast T 1 = 1.
Proof. apply static_cast_id. each_type T; limits; lia. Qed.

(** Adding and then subtracting the same amount restores the object, and so
    does subtracting and then adding it, and [++] followed by [--], provided
    the first step does not trap. *)
Theorem add_then_sub_restores (T : itype) (a x : Z) :
  in_range T a ->
  (in_range T (a + x) ->
   (operator_add_assign T x ;; operator_sub_assign T x) (Trapping a)
     = Returned this_object (Trapping a))
  /\ (in_range T (a - x) ->
      (operator_sub_assign T x ;; operator_add_assign T x) (Trapping a)
        = Returned this_object (Trapping a))
  /\ (a <> numeric_limits_max T ->
      (operator_pre_inc T ;; operator_pre_dec T) (Trapping a)
        = Returned this_object (Trapping a))
  /\ (a <> numeric_limits_min T ->
      (operator_pre_dec T ;; operator_pre_inc T) (Trapping a)
        = Returned this_object (Trapping a)).
Proof.
  intros Ha.
  assert (Hup : a <> numeric_limits_max T -> in_range T (a + 1))
    by (unfold in_range in *; lia).
  assert (Hdown : a <> numeric_limits_min T -> in_range T (a - 1))
    by (unfold in_range in *; lia).
  apply in_rangeb_true_iff in Ha.
  unfold operator_pre_inc, operator_pre_dec.
  cbn [bind ret Monad_method]. rewrite static_cast_1.
  rewrite !operator_add_assign_decides, !operator_sub_assign_decides.
  repeat split; intros H;
    try apply Hup in H; try apply Hdown in H;
    apply in_rangeb_true_iff in H; rewrite H;
    rewrite ?operator_add_assign_decides, ?operator_sub_assign_decides;
    rewrite ?Z.add_simpl_r, ?Z.sub_add; now rewrite Ha.
Qed.

Lemma add_then_sub_restores_witness :
  (operator_add_assign int8_t 27 ;; operator_sub_assign int8_t 27)
    (Trapping 100) = Returned this_object (Trapping 100).
Proof.
  assert (Ha : in_range int8_t 100) by (limits; lia).
  destruct (add_then_sub_restores int8_t 100 27 Ha) as (Hadd & _).
  apply Hadd. limits. lia.
Defined.

(** Increment and decrement trap exactly at the maximum and at the minimum
    of [T]; away from them the postfix forms return the previous object and
    leave the next value, the prefix forms leave the next value. *)
Theorem increment_decrement_at_the_limits (T : itype) (a : Z) :
  in_range T a ->
  operator_post_inc T (Trapping a)
    = (if a =? numeric_limits_max T then Trapped (Trapping a)
       else Returned (Trapping a) (Trapping (a + 1)))
  /\ operator_post_dec T (Trapping a)
     = (if a =? numeric_limits_min T then Trapped (Trapping a)
        else Returned (Trapping a) (Trapping (a - 1)))
  /\ operator_pre_inc T (Trapping a)
     = (if a =? numeric_limits_max T then Trapped (Trapping a)
        else Returned this_object (Trapping (a + 1)))
  /\ operator_pre_dec T (Trapping a)
     = (if a =? numeric_limits_min T then Trapped (Trapping a)
        else Returned this_object (Trapping (a - 1))).
Proof.
  intros Ha.
  assert (Hup : in_rangeb T (a + 1) = negb (a =? numeric_limits_max T)).
  { unfold in_rangeb, in_range in *. by_cases; cbn [andb negb]; lia. }
  assert (Hdown : in_rangeb T (a - 1) = negb (a =? numeric_limits_min T)).
  { unfold in_rangeb, in_range in *. by_cases; cbn [andb negb]; lia. }
  unfold operator_post_inc, operator_post_dec, operator_pre_inc,
    operator_pre_dec.
  cbn [bind ret Monad_method get]. rewrite static_cast_1.
  rewrite operator_add_assign_decides, operator_sub_assign_decides, Hup, Hdown.
  destruct (a =? numeric_limits_max T), (a =? numeric_limits_min T);
    repeat split.
Qed.

Lemma increment_decrement_at_the_limits_witness :
  operator_post_inc uint8_t (Trapping 255) = Trapped (Trapping 255)
  /\ operator_post_dec uint8_t (Trapping 255)
     = Returned (Trapping 255) (Trapping 254).
Proof.
  assert (Ha : in_range uint8_t 255) by (limits; lia).
  destruct (increment_decrement_at_the_limits uint8_t 255 Ha)
    as (Hinc & Hdec & _).
  split; [exact Hinc | exact Hdec].
Defined.

(** Sums and products do not depend on the order of the operands, trap
    included; 0 is neutral for [+] and [-], 1 for [*], and a value minus
    itself and a value times 0 are 0: none of these traps. *)
Theorem arithmetic_operators_algebra (T : itype) (a b : Z) :
  in_range T a ->
  operator_add T (Trapping a) (Trapping b)
    = operator_add T (Trapping b) (Trapping a)
  /\ operator_mul T (Trapping a) (Trapping b)
     = operator_mul T (Trapping b) (Trapping a)
  /\ operator_add T (Trapping a) (Trapping 0) = Ok (Trapping a)
  /\ operator_sub T (Trapping a) (Trapping 0) = Ok (Trapping a)
  /\ operator_mul T (Trapping a) (Trapping 1) = Ok (Trapping a)
  /\ operator_mul T (Trapping a) (Trapping 0) = Ok (Trapping 0)
  /\ operator_sub T (Trapping a) (Trapping a) = Ok (Trapping 0).
Proof.
  intros Ha.
  assert (H0 : in_rangeb T 0 = true)
    by (apply in_rangeb_true_iff; each_type T; limits; lia).
  apply in_rangeb_true_iff in Ha.
  unfold operator_add, operator_sub, operator_mul, on_local, operator_T.
  cbn [bind ret Monad_method value_].
  rewrite !operator_add_assign_decides, !operator_sub_assign_decides,
    !operator_mul_assign_decides.
  rewrite (Z.add_comm b a), (Z.mul_comm b a), Z.add_0_r, Z.sub_0_r,
    Z.mul_1_r, Z.mul_0_r, Z.sub_diag, Ha, H0.
  destruct (in_rangeb T (a + b)), (in_rangeb T (a * b)); repeat split.
Qed.

Lemma arithmetic_operators_algebra_witness :
  operator_add int8_t (Trapping 100) (Trapping 27)
    = operator_add int8_t (Trapping 27) (Trapping 100).
Proof.
  assert (Ha : in_range int8_t 100) by (limits; lia).
  destruct (arithmetic_operators_algebra int8_t 100 27 Ha) as (Hc & _).
  exact Hc.
Defined.

(** Unary minus traps exactly on the minimum of a signed type, and applied
    twice it restores the object. *)
Theorem negation_traps_at_min_and_is_involutive (T : itype) (v : Z) :
  in_range T v ->
  (operator_neg T (Trapping v) = Trapped (Trapping v) <->
   is_signed T = true /\ v = numeric_limits_min T)
  /\ (~ (is_signed T = true /\ v = numeric_limits_min T) ->
      (operator_neg T ;; operator_neg T) (Trapping v)
        = Returned this_object (Trapping v)).
Proof.
  intros Hv. split.
  - rewrite (operator_neg_runs T v Hv).
    destruct (is_signed T); cbn [andb]; by_cases;
      split; intros E; try discriminate E; auto; try tauto.
    destruct E as [E _]; discriminate E.
  - intros Hmin. cbn [bind Monad_method]. rewrite (operator_neg_runs T v Hv).
    destruct (is_signed T) eqn:Es; cbn [andb].
    + destruct (Z.eqb_spec v (numeric_limits_min T)) as [E|E]; [tauto|].
      assert (Hn : in_range T (- v) /\ - v <> numeric_limits_min T).
      { revert Es Hv E. clear. each_type T; try discriminate; limits; lia. }
      destruct Hn as [Hn Hn'].
      rewrite (operator_neg_runs T (- v) Hn), Es. cbn [andb].
      apply Z.eqb_neq in Hn'. rewrite Hn'. now rewrite Z.opp_involutive.
    + assert (Hn : in_range T ((2 ^ bits T - v) mod 2 ^ bits T) /\
                   (2 ^ bits T - (2 ^ bits T - v) mod 2 ^ bits T)
                     mod 2 ^ bits T = v).
      { revert Es Hv. clear. each_type T; try discriminate; limits;
          intros; modular. }
      destruct Hn as [Hn Hn'].
      rewrite (operator_neg_runs T _ Hn), Es. cbn [andb]. now rewrite Hn'.
Qed.

Lemma negation_traps_at_min_and_is_involutive_witness :
  (operator_neg int8_t ;; operator_neg int8_t) (Trapping 127)
    = Returned this_object (Trapping 127).
Proof.
  assert (Hv : in_range int8_t 127) by (limits; lia).
  destruct (negation_traps_at_min_and_is_involutive int8_t 127 Hv)
    as (_ & Htwice).
  apply Htwice. intros [_ E]. discriminate E.
Defined.

(** ** Left shifts of unsigned values *)

(** A shift amount accepted by the shift operators is a value of every
    integral type. *)
Lemma shift_amount_in_range (T : itype) (x : Z) :
  1 <= x <= bits T - 1 -> in_range T x.
Proof. each_type T; limits; lia. Qed.

Lemma operator_shl_assign_decides (T : itype) (x v : Z) :
  in_range T v -> 1 <= x <= bits T - 1 ->
  operator_shl_assign T x (Trapping v) =
    if static_cast T (x * 2 ^ (bits T - x)) <? v
    then Trapped (Trapping v)
    else Returned this_object (Trapping (static_cast T (v * 2 ^ x))).
Proof.
  intros Hv Hamount.
  pose proof (shift_amount_in_range T x Hamount) as Hx.
  run_method. cbn [trap value_].
  rewrite (shift_amount_check T x Hx).
  replace ((1 <=? x) && (x <=? bits T - 1)) with true
    by (symmetry; apply andb_true_iff; split; apply Z.leb_le; lia).
  cbn [negb]. rewrite (remaining_bits T x Hamount).
  rewrite (op_shl_value T x) by (assumption || lia).
  unfold op_gt. rewrite compare_in_exact, Z.gtb_ltb.
  - cbn [value_]. destruct (_ <? v); [reflexivity|]. cbn [value_].
    now rewrite op_shl_value by (assumption || lia).
  - rewrite common_type_same. auto with ranges.
  - rewrite common_type_same. auto with ranges.
Qed.

(** The bound [x << (bits - x)] of an unsigned type is not reduced by the
    conversion to [T], and every value that can be shifted by [x] without
    loss lies below it. *)
Lemma unsigned_shift_bound (T : itype) (x v : Z) :
  is_signed T = false -> 1 <= x <= bits T - 1 -> 0 <= v ->
  v * 2 ^ x <= numeric_limits_max T ->
  in_range T (x * 2 ^ (bits T - x)) /\ v < x * 2 ^ (bits T - x).
Proof.
  intros Hu Hamount Hv Hfits.
  assert (Hsplit : 2 ^ bits T = 2 ^ x * 2 ^ (bits T - x)).
  { rewrite <- Z.pow_add_r by lia. f_equal. lia. }
  pose proof (Z.pow_gt_lin_r 2 x ltac:(lia) ltac:(lia)) as Hlin.
  pose proof (Z.pow_pos_nonneg 2 (bits T - x) ltac:(lia) ltac:(lia)) as Hq.
  unfold in_range, numeric_limits_max, numeric_limits_min in *.
  rewrite Hu in *. nia.
Qed.

(** On an unsigned type a left shift that loses no bit never traps and gives
    the exact product [v * 2 ^ x], with [<<=] and with binary [<<], which then
    agrees with the multiplication by [2 ^ x]. *)
Theorem unsigned_lossless_shift_succeeds (T : itype) (x v : Z) :
  is_signed T = false -> in_range T v -> 1 <= x <= bits T - 1 ->
  v * 2 ^ x <= numeric_limits_max T ->
  operator_shl_assign T x (Trapping v)
    = Returned this_object (Trapping (v * 2 ^ x))
  /\ operator_shl T (Trapping v) (Trapping x) = Ok (Trapping (v * 2 ^ x))
  /\ operator_shl T (Trapping v) (Trapping x)
     = operator_mul T (Trapping v) (Trapping (2 ^ x)).
Proof.
  intros Hu Hv Hamount Hfits.
  assert (H0 : 0 <= v).
  { unfold in_range, numeric_limits_min in Hv. rewrite Hu in Hv. lia. }
  destruct (unsigned_shift_bound T x v Hu Hamount H0 Hfits) as [Hy Hlt].
  assert (Hp : in_range T (v * 2 ^ x)).
  { pose proof (Z.pow_pos_nonneg 2 x ltac:(lia) ltac:(lia)).
    unfold in_range, numeric_limits_min. rewrite Hu. nia. }
  assert (E : operator_shl_assign T x (Trapping v)
              = Returned this_object (Trapping (v * 2 ^ x))).
  { rewrite (operator_shl_assign_decides T x v Hv Hamount).
    rewrite (static_cast_id T _ Hy), (static_cast_id T _ Hp).
    destruct (Z.ltb_spec (x * 2 ^ (bits T - x)) v); [lia|reflexivity]. }
  assert (E' : operator_shl T (Trapping v) (Trapping x)
               = Ok (Trapping (v * 2 ^ x))).
  { unfold operator_shl, on_local, operator_T.
    cbn [bind Monad_method value_]. now rewrite E. }
  split; [exact E | split; [exact E'|]]. rewrite E'.
  unfold operator_mul, on_local, operator_T. cbn [bind Monad_method value_].
  rewrite operator_mul_assign_decides.
  apply in_rangeb_true_iff in Hp. now rewrite Hp.
Qed.

Lemma unsigned_lossless_shift_succeeds_witness :
  operator_shl_assign uint8_t 3 (Trapping 31)
    = Returned this_object (Trapping (31 * 2 ^ 3))
  /\ operator_shl uint8_t (Trapping 31) (Trapping 3)
     = Ok (Trapping (31 * 2 ^ 3)).
Proof.
  assert (Hv : in_range uint8_t 31) by (limits; lia).
  assert (Hx : 1 <= 3 <= bits uint8_t - 1) by (limits; lia).
  assert (Hfits : 31 * 2 ^ 3 <= numeric_limits_max uint8_t) by (limits; lia).
  destruct (unsigned_lossless_shift_succeeds uint8_t 3 31 eq_refl Hv Hx Hfits)
    as (Hassign & Hbinary & _).
  split; [exact Hassign | exact Hbinary].
Defined.

(** ** The guard against the overflowing quotient *)

(** [divide_min_by_negative_1] looks at the signedness of the divisor's type
    only: with any unsigned dividend type and any signed divisor type, the
    dividend 0 and the divisor -1 are reported as a failure by both probes,
    for every result type, although native division gives 0. *)
Theorem unsigned_zero_by_signed_minus_1_fails
  (wT wU : width) (R : itype) (result : Z) :
  let T := IntType false wT in
  let U := IntType true wU in
  divide_min_by_negative_1 T U 0 (-1) = true
  /\ div_overflow T U R 0 (-1) result = Ok (true, result)
  /\ mod_overflow T U R 0 (-1) result = Ok (true, result)
  /\ op_div T U 0 (-1) = 0 /\ op_mod T U 0 (-1) = 0
  /\ in_range R 0.
Proof.
  destruct wT, wU; repeat split; try (each_type R; limits; lia).
Qed.

(** ** Shifts against multiplication and division *)

(** On a signed type the bound [x << (bits - x)] is the minimum of the type
    for the shift amounts 1 and 2: a left shift by 1 or by 2 traps on every
    value but the minimum, and turns the minimum into 0. *)
Theorem signed_shift_by_1_or_2 (T : itype) (x v : Z) :
  is_signed T = true -> in_range T v -> x = 1 \/ x = 2 ->
  operator_shl_assign T x (Trapping v) =
    if v =? numeric_limits_min T
    then Returned this_object (Trapping 0)
    else Trapped (Trapping v).
Proof.
  intros Hs Hv Hx.
  assert (Hamount : 1 <= x <= bits T - 1)
    by (clear Hv; revert Hs; each_type T; try discriminate; limits; lia).
  rewrite (operator_shl_assign_decides T x v Hv Hamount).
  assert (Hy : static_cast T (x * 2 ^ (bits T - x)) = numeric_limits_min T).
  { clear Hv Hamount. revert Hs.
    each_type T; try discriminate; intros _; destruct Hx as [-> | ->];
      reflexivity. }
  rewrite Hy.
  destruct (Z.eqb_spec v (numeric_limits_min T)) as [E|E].
  - rewrite E, Z.ltb_irrefl. do 2 f_equal. clear Hv Hamount Hy E. revert Hs.
    each_type T; try discriminate; intros _; destruct Hx as [-> | ->];
      reflexivity.
  - destruct (Z.ltb_spec (numeric_limits_min T) v); [reflexivity|].
    unfold in_range in Hv. lia.
Qed.

Lemma signed_shift_by_1_or_2_witness :
  operator_shl_assign int32_t 1 (Trapping 1) = Trapped (Trapping 1).
Proof.
  apply (signed_shift_by_1_or_2 int32_t 1 1);
    [reflexivity | limits; lia | now left].
Defined.

(** For a non-negative value a right shift by [n] is the division by
    [2 ^ n], when [2 ^ n] is a value of [T]. *)
Theorem shift_right_is_division (T : itype) (a n : Z) :
  in_range T a -> 0 <= a -> 1 <= n <= bits T - 1 -> in_range T (2 ^ n) ->
  operator_shr T (Trapping a) (Trapping n)
    = operator_div T (Trapping a) (Trapping (2 ^ n))
  /\ operator_shr T (Trapping a) (Trapping n) = Ok (Trapping (a / 2 ^ n)).
Proof.
  intros Ha H0 Hn Hp.
  pose proof (shift_amount_in_range T n Hn) as Hx.
  pose proof (Z.pow_pos_nonneg 2 n ltac:(lia) ltac:(lia)) as Hpos.
  assert (Eshr : operator_shr T (Trapping a) (Trapping n)
                 = Ok (Trapping (a / 2 ^ n))).
  { unfold operator_shr, on_local, operator_T. run_method.
    cbn [trap value_]. rewrite (shift_amount_check T n Hx).
    replace ((1 <=? n) && (n <=? bits T - 1)) with true
      by (symmetry; apply andb_true_iff; split; apply Z.leb_le; lia).
    cbn [negb value_].
    now rewrite (op_shr_value T n a Ha) by lia; rewrite Z.shiftr_div_pow2 by lia. }
  split; [|exact Eshr]. rewrite Eshr.
  unfold operator_div, on_local, operator_T. run_method. cbn [value_].
  unfold trapping_div. cbv zeta.
  rewrite (div_overflow_same_type_decides T a (2 ^ n) Ha Hp).
  assert (Eg : division_guard T a (2 ^ n) = false).
  { unfold division_guard. apply orb_false_iff. split.
    - apply Z.eqb_neq. lia.
    - rewrite andb_false_iff. right. apply Z.eqb_neq. lia. }
  rewrite Eg. cbn [bind ret Monad_completion Monad_method get when].
  now rewrite Z.quot_div_nonneg by lia.
Qed.

Lemma shift_right_is_division_witness :
  operator_shr uint8_t (Trapping 200) (Trapping 3)
    = operator_div uint8_t (Trapping 200) (Trapping (2 ^ 3))
  /\ operator_shr uint8_t (Trapping 200) (Trapping 3)
     = Ok (Trapping (200 / 2 ^ 3)).
Proof.
  apply (shift_right_is_division uint8_t 200 3); limits; lia.
Defined.

(** On a signed type, dividing by -1 and unary minus do the same: both trap
    on the minimum and leave [- a] otherwise. *)
Theorem division_by_minus_1_is_negation (T : itype) (a : Z) :
  is_signed T = true -> in_range T a ->
  operator_div_assign T (-1) (Trapping a) = operator_neg T (Trapping a).
Proof.
  intros Hs Ha.
  assert (Hm : in_range T (-1))
    by (clear Ha; revert Hs; each_type T; try discriminate; limits; lia).
  rewrite (operator_neg_runs T a Ha), Hs. cbn [andb].
  run_method. cbn [value_]. unfold trapping_div. cbv zeta.
  rewrite (div_overflow_same_type_decides T a (-1) Ha Hm).
  unfold division_guard. rewrite Hs. cbn [andb orb Z.eqb].
  rewrite andb_true_r.
  destruct (a =? numeric_limits_min T); [reflexivity|].
  cbn [bind ret Monad_completion when].
  do 2 f_equal. change (-1) with (- (1)).
  now rewrite Z.quot_opp_r, Z.quot_1_r by lia.
Qed.

Lemma division_by_minus_1_is_negation_witness :
  operator_div_assign int16_t (-1) (Trapping 300)
    = operator_neg int16_t (Trapping 300).
Proof.
  apply (division_by_minus_1_is_negation int16_t 300);
    [reflexivity | limits; lia].
Defined.

(** ** What each mutating operator stores *)

Section mutating_operators.

Variable T : itype.
Variables a x : Z.
Hypothesis Ha : in_range T a.
Hypothesis Hx : in_range T x.

Lemma operator_div_assign_decides :
  operator_div_assign T x (Trapping a) =
    if division_guard T a x then Trapped (Trapping a)
    else Returned this_object (Trapping (Z.quot a x)).
Proof.
  run_method. cbn [value_]. unfold trapping_div. cbv zeta.
  rewrite (div_overflow_same_type_decides T a x Ha Hx).
  now destruct (division_guard T a x).
Qed.

Lemma operator_mod_assign_decides :
  operator_mod_assign T x (Trapping a) =
    if division_guard T a x then Trapped (Trapping a)
    else Returned this_object (Trapping (Z.rem a x)).
Proof.
  run_method. cbn [value_]. unfold trapping_mod. cbv zeta.
  rewrite (mod_overflow_same_type_decides T a x Ha Hx).
  now destruct (division_guard T a x).
Qed.

Lemma operator_shr_assign_decides :
  operator_shr_assign T x (Trapping a) =
    if (1 <=? x) && (x <=? bits T - 1)
    then Returned this_object (Trapping (Z.shiftr a x))
    else Trapped (Trapping a).
Proof.
  run_method. cbn [trap value_]. rewrite (shift_amount_check T x Hx).
  destruct (Z.leb_spec 1 x); destruct (Z.leb_spec x (bits T - 1));
    cbn [andb negb value_]; try reflexivity.
  now rewrite (op_shr_value T x a Ha) by lia.
Qed.

Lemma operator_shl_assign_decides_any_amount :
  operator_shl_assign T x (Trapping a) =
    if (1 <=? x) && (x <=? bits T - 1)
       && negb (static_cast T (x * 2 ^ (bits T - x)) <? a)
    then Returned this_object (Trapping (static_cast T (a * 2 ^ x)))
    else Trapped (Trapping a).
Proof.
  destruct (Z.leb_spec 1 x); destruct (Z.leb_spec x (bits T - 1));
    cbn [andb];
    try (run_method; cbn [trap value_]; rewrite (shift_amount_check T x Hx);
         replace ((1 <=? x) && (x <=? bits T - 1)) with false
           by (symmetry; apply andb_false_iff; rewrite !Z.leb_gt; lia);
         reflexivity).
  rewrite (operator_shl_assign_decides T x a Ha) by lia.
  now destruct (_ <? a).
Qed.

(** C8. On an object holding a value [a] of [T], with an operand [x] of type
    [T], each mutating operator that can be instantiated (the arithmetic
    compound assignments, the shifts, increment and decrement in both forms,
    unary minus) either returns with the newly computed value stored, or
    traps with the object still holding [a]: there is no third outcome, and
    no trap after a store. *)
Theorem mutating_operators_replace_or_trap :
  let s := @Trapping T a in
  operator_add_assign T x s
    = (if in_rangeb T (a + x) then Returned this_object (Trapping (a + x))
       else Trapped s)
  /\ operator_sub_assign T x s
     = (if in_rangeb T (a - x) then Returned this_object (Trapping (a - x))
        else Trapped s)
  /\ operator_mul_assign T x s
     = (if in_rangeb T (a * x) then Returned this_object (Trapping (a * x))
        else Trapped s)
  /\ operator_div_assign T x s
     = (if division_guard T a x then Trapped s
        else Returned this_object (Trapping (Z.quot a x)))
  /\ operator_mod_assign T x s
     = (if division_guard T a x then Trapped s
        else Returned this_object (Trapping (Z.rem a x)))
  /\ operator_shr_assign T x s
     = (if (1 <=? x) && (x <=? bits T - 1)
        then Returned this_object (Trapping (Z.shiftr a x))
        else Trapped s)
  /\ operator_shl_assign T x s
     = (if (1 <=? x) && (x <=? bits T - 1)
           && negb (static_cast T (x * 2 ^ (bits T - x)) <? a)
        then Returned this_object (Trapping (static_cast T (a * 2 ^ x)))
        else Trapped s)
  /\ operator_pre_inc T s
     = (if in_rangeb T (a + 1) then Returned this_object (Trapping (a + 1))
        else Trapped s)
  /\ operator_post_inc T s
     = (if in_rangeb T (a + 1) then Returned s (Trapping (a + 1))
        else Trapped s)
  /\ operator_pre_dec T s
     = (if in_rangeb T (a - 1) then Returned this_object (Trapping (a - 1))
        else Trapped s)
  /\ operator_post_dec T s
     = (if in_rangeb T (a - 1) then Returned s (Trapping (a - 1))
        else Trapped s)
  /\ operator_neg T s
     = (if is_signed T && (a =? numeric_limits_min T) then Trapped s
        else Returned this_object
               (Trapping (if is_signed T then - a
                          else (2 ^ bits T - a) mod 2 ^ bits T))).
Proof.
  cbv zeta.
  rewrite operator_div_assign_decides, operator_mod_assign_decides,
    operator_shr_assign_decides, operator_shl_assign_decides_any_amount,
    (operator_neg_runs T a Ha).
  unfold operator_pre_inc, operator_post_inc, operator_pre_dec,
    operator_post_dec.
  cbn [bind ret Monad_method get]. rewrite static_cast_1.
  rewrite !operator_add_assign_decides, !operator_sub_assign_decides,
    operator_mul_assign_decides.
  destruct (in_rangeb T (a + 1)), (in_rangeb T (a - 1)); repeat split.
Qed.

End mutating_operators.

Lemma mutating_operators_replace_or_trap_witness :
  operator_add_assign int8_t 27 (Trapping 100)
    = Returned this_object (Trapping 127)
  /\ operator_mul_assign int8_t 27 (Trapping 100) = Trapped (Trapping 100).
Proof.
  assert (Ha : in_range int8_t 100) by (limits; lia).
  assert (Hx : in_range int8_t 27) by (limits; lia).
  destruct (mutating_operators_replace_or_trap int8_t 100 27 Ha Hx)
    as (Hadd & _ & Hmul & _).
  split; [exact Hadd | exact Hmul].
Defined.
